(** * The half-edge graph builder of [geos::edgegraph]

    A shallow embedding of [src/edgegraph/EdgeGraph.cpp] and of the
    [HalfEdge] contract it relies on, with the properties of the
    specification stated and proved over it.

    Pointers to half-edges are handles into the arena that owns them:
    a [HalfEdge*] is an [option nat], [None] being [nullptr] and [Some h]
    the [h]-th half-edge ever created by [EdgeGraph::createEdge].  Every
    operation that dereferences a pointer is partial: it has no result
    ([None]) when the pointer is null or dangling, or when a loop does not
    come back to where it started. *)

From stdpp Require Import gmap list fin_maps.
From Stdlib Require Import ZArith Lia.

Local Open Scope Z_scope.

(** ** Coordinates *)

(** Modelled from the spec: the [Coordinate] type of [geos/geom/Coordinate.h]
    is not part of the sources.  The spec asks for an opaque point value
    with exact equality and a total, lexicographic-style order, and leaves
    precision out; a coordinate is the pair of ordinates that are
    compared, as exact integers. *)
Record Coordinate := mkCoordinate { coord_x : Z; coord_y : Z }.

#[global] Instance Coordinate_eq_dec : EqDecision Coordinate.
Proof. solve_decision. Defined.

#[global] Instance Coordinate_countable : Countable Coordinate.
Proof.
  refine (inj_countable' (λ c, (coord_x c, coord_y c))
                         (λ p, mkCoordinate p.1 p.2) _).
  by intros [].
Defined.

(** Modelled from the spec: [Coordinate::compareTo], the three-way
    lexicographic comparison used by [EdgeGraph::isValidEdge]. *)
Definition compareTo (a b : Coordinate) : Z :=
  if coord_x a <? coord_x b then -1
  else if coord_x b <? coord_x a then 1
  else if coord_y a <? coord_y b then -1
  else if coord_y b <? coord_y a then 1
  else 0.

(** Modelled from the spec: the exact equality used by [HalfEdge::find]. *)
Definition equals2D (a b : Coordinate) : bool :=
  (coord_x a =? coord_x b) && (coord_y a =? coord_y b).

Local Close Scope Z_scope.

(** A [HalfEdge*]. *)
Abbreviation ptr := (option nat) (only parsing).
Abbreviation nullptr := (@None nat) (only parsing).

(** ** HalfEdge *)

Module HalfEdge.

(** The record: the origin and the two non-owning references. *)
Record t := mk { m_orig : Coordinate; m_sym : ptr; m_next : ptr }.

(** The arena: the half-edges in creation order. *)
Abbreviation heap := (list t) (only parsing).

(** Modelled from the spec: the constructor [HalfEdge(orig)] leaves the
    new half-edge unlinked. *)
Definition new (p_orig : Coordinate) : t :=
  {| m_orig := p_orig; m_sym := nullptr; m_next := nullptr |}.

Definition orig (es : heap) (h : nat) : option Coordinate :=
  m_orig <$> es !! h.

(** [sym] and [next] return the stored pointer, which may be null. *)
Definition sym (es : heap) (h : nat) : option ptr := m_sym <$> es !! h.
Definition next (es : heap) (h : nat) : option ptr := m_next <$> es !! h.

(** [dest()] is [sym()->orig()]. *)
Definition dest (es : heap) (h : nat) : option Coordinate :=
  s ← sym es h; s' ← s; orig es s'.

Definition setSym (es : heap) (h : nat) (p : ptr) : option heap :=
  e ← es !! h;
  Some (<[h := {| m_orig := m_orig e; m_sym := p; m_next := m_next e |}]> es).

Definition setNext (es : heap) (h : nat) (p : ptr) : option heap :=
  e ← es !! h;
  Some (<[h := {| m_orig := m_orig e; m_sym := m_sym e; m_next := p |}]> es).

(** Modelled from the spec: [HalfEdge::link] is not part of the sources.
    It sets each half-edge's [sym] to the other and each one's [next] to
    itself, a ring of size one. *)
Definition link (es : heap) (self other : nat) : option heap :=
  es1 ← setSym es self (Some other);
  es2 ← setSym es1 other (Some self);
  es3 ← setNext es2 self (Some self);
  setNext es3 other (Some other).

(** Modelled from the spec: [HalfEdge::find] is not part of the sources.
    It walks [next] from [self] until a half-edge whose destination
    equals [p_dest] is met, or the walk is back at [self].  The loop is
    bounded by [fuel]; running out of it is a walk that never came
    back. *)
Fixpoint find_from (fuel : nat) (es : heap) (self cur : nat)
    (p_dest : Coordinate) : option ptr :=
  match fuel with
  | O => None
  | S fuel' =>
      d ← dest es cur;
      if equals2D d p_dest then Some (Some cur)
      else
        n ← next es cur; n' ← n;
        if Nat.eqb n' self then Some nullptr
        else find_from fuel' es self n' p_dest
  end.

Definition find (es : heap) (self : nat) (p_dest : Coordinate) : option ptr :=
  find_from (length es) es self self p_dest.

(** The members of the rotation ring of [self], in [next] order. *)
Fixpoint ring_from (fuel : nat) (es : heap) (self cur : nat)
    : option (list nat) :=
  match fuel with
  | O => None
  | S fuel' =>
      n ← next es cur; n' ← n;
      if Nat.eqb n' self then Some [cur]
      else (cur ::.) <$> ring_from fuel' es self n'
  end.

Definition ring (es : heap) (self : nat) : option (list nat) :=
  ring_from (length es) es self self.

(** Splice [e] right after [self]: [e] takes over [self]'s successor. *)
Definition insertAfter (es : heap) (self e : nat) : option heap :=
  save ← next es self;
  es1 ← setNext es self (Some e);
  setNext es1 e save.

Section Ordering.

(** The rule that orders half-edges around a shared origin is external
    to the component.  It is a parameter: given the origin, the
    destinations met around the ring starting at the half-edge
    [insert] is called on, and the destination of the new half-edge,
    it names the ring member (by position, modulo the ring's size)
    after which the new half-edge goes. *)
Variable insertionPoint : Coordinate → list Coordinate → Coordinate → nat.

(** Modelled from the spec: [HalfEdge::insert] is not part of the
    sources.  It checks that the new half-edge shares the origin of
    [self] (a fatal check), and splices it into the ring of [self] at
    the position the ordering rule gives. *)
Definition insert (es : heap) (self eAdd : nat) : option heap :=
  o ← orig es self;
  o' ← orig es eAdd;
  if negb (equals2D o o') then None
  else
    r ← ring es self;
    ds ← mapM (dest es) r;
    d ← dest es eAdd;
    ePrev ← r !! (insertionPoint o ds d mod length r);
    insertAfter es ePrev eAdd.

End Ordering.

End HalfEdge.

(** ** EdgeGraph *)

Module EdgeGraph.

Record t := mk {
  edges : list HalfEdge.t;
  vertexMap : gmap Coordinate ptr
}.

(** A freshly constructed graph. *)
Definition empty : t := {| edges := []; vertexMap := ∅ |}.

(** Methods run in a state-and-failure monad over the graph. *)
Definition M (A : Type) : Type := t → option (A * t).

Definition ret {A} (a : A) : M A := λ g, Some (a, g).

Definition bind {A B} (m : M A) (k : A → M B) : M B :=
  λ g, match m g with
       | Some (a, g') => k a g'
       | None => None
       end.

Notation "x ←← m ; k" := (bind m (λ x, k))
  (at level 100, m at next level, right associativity,
   format "x  ←←  m ;  '/' k").

(** A [HalfEdge] method that only reads the arena. *)
Definition reading {A} (f : list HalfEdge.t → option A) : M A :=
  λ g, a ← f (edges g); Some (a, g).

(** A [HalfEdge] method that rewrites half-edges of the arena. *)
Definition writing (f : list HalfEdge.t → option (list HalfEdge.t)) : M unit :=
  λ g, es ← f (edges g); Some (tt, {| edges := es; vertexMap := vertexMap g |}).

(** [vertexMap.find(p)], with [nullptr] when [p] is not a key. *)
Definition lookupVertex (p : Coordinate) : M ptr :=
  λ g, Some (default nullptr (vertexMap g !! p), g).

(** [vertexMap[p] = e]. *)
Definition setVertex (p : Coordinate) (e : ptr) : M unit :=
  λ g, Some (tt, {| edges := edges g; vertexMap := <[p := e]> (vertexMap g) |}).

(** [createEdge]: the new half-edge goes to the back of the arena and
    its handle is returned.  This is the branch without
    [EDGEGRAPH_HEAPHACK]; the other branch hands out the slots of
    fixed-size arrays in the same order, so that the [h]-th half-edge
    created is the [h]-th slot there too. *)
Definition createEdge (p_orig : Coordinate) : M nat :=
  λ g, Some (length (edges g),
             {| edges := edges g ++ [HalfEdge.new p_orig];
                vertexMap := vertexMap g |}).

Definition create (p0 p1 : Coordinate) : M nat :=
  e0 ←← createEdge p0;
  e1 ←← createEdge p1;
  _ ←← writing (λ es, HalfEdge.link es e0 e1);
  ret e0.

Definition isValidEdge (p_orig p_dest : Coordinate) : bool :=
  negb (compareTo p_dest p_orig =? 0)%Z.

(** [findEdge] *)
Definition findEdge (p_orig p_dest : Coordinate) : M ptr :=
  e ←← lookupVertex p_orig;
  match e with
  | None => ret nullptr
  | Some e' => reading (λ es, HalfEdge.find es e' p_dest)
  end.

(** [getVertexEdges]: the loop over the entries of the map, pushing the
    mapped pointer of each to the back of [edgesOut]. *)
Fixpoint push_entries (its : list (Coordinate * ptr)) (edgesOut : list ptr)
    : list ptr :=
  match its with
  | [] => edgesOut
  | it :: its' => push_entries its' (edgesOut ++ [it.2])
  end.

Definition getVertexEdges (edgesOut : list ptr) : M (list ptr) :=
  λ g, Some (push_entries (map_to_list (vertexMap g)) edgesOut, g).

Section Ordering.

Variable insertionPoint : Coordinate → list Coordinate → Coordinate → nat.

(** The private [insert]. *)
Definition insert (p_orig p_dest : Coordinate) (eAdj : ptr) : M nat :=
  e ←← create p_orig p_dest;
  _ ←← match eAdj with
       | Some eAdj' =>
           writing (λ es, HalfEdge.insert insertionPoint es eAdj' e)
       | None => setVertex p_orig (Some e)
       end;
  eAdjDest ←← lookupVertex p_dest;
  _ ←← match eAdjDest with
       | Some eAdjDest' =>
           writing (λ es, s ← HalfEdge.sym es e; s' ← s;
                          HalfEdge.insert insertionPoint es eAdjDest' s')
       | None =>
           s ←← reading (λ es, HalfEdge.sym es e);
           setVertex p_dest s
       end;
  ret e.

(** [addEdge] *)
Definition addEdge (p_orig p_dest : Coordinate) : M ptr :=
  if negb (isValidEdge p_orig p_dest) then ret nullptr
  else
    eAdj ←← lookupVertex p_orig;
    eSame ←← match eAdj with
             | Some eAdj' => reading (λ es, HalfEdge.find es eAdj' p_dest)
             | None => ret nullptr
             end;
    match eSame with
    | Some _ => ret eSame
    | None =>
        e ←← insert p_orig p_dest eAdj;
        ret (Some e)
    end.

End Ordering.

End EdgeGraph.

(** ** What the properties are stated with *)

(** [linked es l z]: in the arena [es], each member of [l] has the one
    after it as its [next], and the last one has [z]. *)
Fixpoint linked (es : list HalfEdge.t) (l : list nat) (z : nat) : Prop :=
  match l with
  | [] => True
  | h :: t => HalfEdge.next es h = Some (Some (hd z t)) ∧ linked es t z
  end.

(** [l] is the rotation ring entered at [r]: it starts at [r], visits no
    half-edge twice, and its last member's [next] is [r] again. *)
Definition is_ring (es : list HalfEdge.t) (r : nat) (l : list nat) : Prop :=
  head l = Some r ∧ NoDup l ∧ linked es l r.

(** Following [next] [k] times from [h]. *)
Fixpoint nextN (es : list HalfEdge.t) (k : nat) (h : nat) : option nat :=
  match k with
  | O => Some h
  | S k' => n ← HalfEdge.next es h; n' ← n; nextN es k' n'
  end.

(** Two arenas hold the same half-edges up to their [next] pointers. *)
Definition same_shape (es es' : list HalfEdge.t) : Prop :=
  ∀ h, HalfEdge.orig es' h = HalfEdge.orig es h
       ∧ HalfEdge.sym es' h = HalfEdge.sym es h.

(** The arena once [create] has made and linked the two half-edges of
    the edge from [o] to [d]. *)
Definition with_new_edge (es : list HalfEdge.t) (o d : Coordinate)
    : list HalfEdge.t :=
  es ++ [ HalfEdge.mk o (Some (S (length es))) (Some (length es));
          HalfEdge.mk d (Some (length es)) (Some (S (length es))) ].

(** The structural invariant of the graph.  [P] is the set of half-edges
    that [create] has made and linked but that are not yet spliced into
    the ring of their origin; it is empty between two calls of [addEdge]. *)
Record wfP (P : gset nat) (g : EdgeGraph.t) : Prop := {
  wf_sym : ∀ h, h < length (EdgeGraph.edges g) →
    ∃ s, HalfEdge.sym (EdgeGraph.edges g) h = Some (Some s)
         ∧ HalfEdge.sym (EdgeGraph.edges g) s = Some (Some h);
  wf_pending : ∀ h, h ∈ P →
    HalfEdge.next (EdgeGraph.edges g) h = Some (Some h);
  wf_vertex : ∀ v p, EdgeGraph.vertexMap g !! v = Some p →
    ∃ r l, p = Some r ∧ is_ring (EdgeGraph.edges g) r l
           ∧ ∀ h, h ∈ l ↔ HalfEdge.orig (EdgeGraph.edges g) h = Some v ∧ h ∉ P;
  wf_known : ∀ h v, HalfEdge.orig (EdgeGraph.edges g) h = Some v → h ∉ P →
    is_Some (EdgeGraph.vertexMap g !! v);
  wf_simple : ∀ h1 h2 o d,
    HalfEdge.orig (EdgeGraph.edges g) h1 = Some o →
    HalfEdge.orig (EdgeGraph.edges g) h2 = Some o →
    HalfEdge.dest (EdgeGraph.edges g) h1 = Some d →
    HalfEdge.dest (EdgeGraph.edges g) h2 = Some d → h1 = h2
}.

Definition wf (g : EdgeGraph.t) : Prop := wfP ∅ g.

(** [h] is a half-edge from [a] to [b]. *)
Definition half_edge (es : list HalfEdge.t) (h : nat) (a b : Coordinate) : Prop :=
  HalfEdge.orig es h = Some a ∧ HalfEdge.dest es h = Some b.

(** The arena holds exactly the two half-edges of each non-degenerate
    edge that the calls [T] of [addEdge] asked for. *)
Definition records (T : list (Coordinate * Coordinate)) (es : list HalfEdge.t) : Prop :=
  ∀ a b, (∃ h, half_edge es h a b) ↔ a ≠ b ∧ ((a, b) ∈ T ∨ (b, a) ∈ T).

(** The other end of the edge asked for by the call [od], when that edge
    is not degenerate and has [v] as an end. *)
Definition incidentTo (v : Coordinate) (od : Coordinate * Coordinate)
    : option Coordinate :=
  if decide (od.1 = od.2) then None
  else if decide (od.1 = v) then Some od.2
  else if decide (od.2 = v) then Some od.1
  else None.

(** The number of distinct edges incident to [v] among the calls [T]. *)
Definition degree (v : Coordinate) (T : list (Coordinate * Coordinate)) : nat :=
  length (remove_dups (omap (incidentTo v) T)).

(** The half-edge [e], still on its own, joins the vertex [v]: it is
    spliced into the ring of the representative of [v], or becomes the
    representative when [v] has none.  Both halves of [EdgeGraph::insert]
    have this form. *)
Definition attach (ip : Coordinate → list Coordinate → Coordinate → nat)
    (v : Coordinate) (rep : ptr) (e : nat) : EdgeGraph.M unit :=
  match rep with
  | Some r => EdgeGraph.writing (λ es, HalfEdge.insert ip es r e)
  | None => EdgeGraph.setVertex v (Some e)
  end.

(** The graph states a caller can see: those a sequence of [addEdge]
    calls leads to from the empty graph.  The calls are recorded, the
    most recent first. *)
Inductive reachable (ip : Coordinate → list Coordinate → Coordinate → nat)
    : list (Coordinate * Coordinate) → EdgeGraph.t → Prop :=
| reachable_empty : reachable ip [] EdgeGraph.empty
| reachable_addEdge T g o d r g' :
    reachable ip T g →
    EdgeGraph.addEdge ip o d g = Some (r, g') →
    reachable ip ((o, d) :: T) g'.

(** Running a list of calls, the first call first. *)
Definition run (ip : Coordinate → list Coordinate → Coordinate → nat)
    (calls : list (Coordinate * Coordinate)) : option EdgeGraph.t :=
  foldl (λ g od, g' ← g; snd <$> EdgeGraph.addEdge ip od.1 od.2 g')
        (Some EdgeGraph.empty) calls.

(** The number of distinct non-degenerate undirected edges among the
    calls [T] (the most recent call first): a call counts when its ends
    differ and no earlier call asked for the same edge, in either
    direction. *)
Fixpoint distinctEdges (T : list (Coordinate * Coordinate)) : nat :=
  match T with
  | [] => 0
  | od :: T' =>
      if decide (od.1 = od.2) then distinctEdges T'
      else if decide (od ∈ T' ∨ (od.2, od.1) ∈ T') then distinctEdges T'
      else S (distinctEdges T')
  end.

(** ** The arena of fixed-size arrays

    [createEdge] compiled with [EDGEGRAPH_HEAPHACK]: [edges] is a vector of
    arrays of [HalfEdgeArraySize] half-edges, [edgeArrayCount] is the index
    of the array in use and [edgeCount] the next free slot in it.  A
    pointer to a half-edge is the pair of an array index and a slot index.
    Indexing a vector or an array out of its bounds has no result. *)

Module HeapHack.

Record t := mk {
  edges : list (list HalfEdge.t);
  edgeArrayCount : nat;
  edgeCount : nat
}.

(** The half-edge a pointer designates. *)
Definition slot (s : t) (p : nat * nat) : option HalfEdge.t :=
  arr ← edges s !! p.1; arr !! p.2.

Section Arrays.

(** The constant [HalfEdgeArraySize] and the value of a
    default-constructed [HalfEdge] are declared in [EdgeGraph.h] and
    [HalfEdge.h], which are not part of the sources: both are
    parameters. *)
Variable HalfEdgeArraySize : nat.
Variable blank : HalfEdge.t.

(** [new std::array<HalfEdge, HalfEdgeArraySize>] *)
Definition newArray : list HalfEdge.t := replicate HalfEdgeArraySize blank.

Definition createEdge (p_orig : Coordinate) (s : t)
    : option ((nat * nat) * t) :=
  let edges1 := match edges s with
                | [] => [newArray]
                | _ => edges s
                end in
  arr ← edges1 !! edgeArrayCount s;
  _ ← arr !! edgeCount s;
  let he := (edgeArrayCount s, edgeCount s) in
  let edgeCount1 := S (edgeCount s) in
  let edges2 :=
    <[edgeArrayCount s := <[edgeCount s := HalfEdge.new p_orig]> arr]> edges1 in
  if Nat.eqb edgeCount1 HalfEdgeArraySize
  then Some (he, {| edges := edges2 ++ [newArray];
                    edgeArrayCount := S (edgeArrayCount s);
                    edgeCount := 0 |})
  else Some (he, {| edges := edges2;
                    edgeArrayCount := edgeArrayCount s;
                    edgeCount := edgeCount1 |}).

(** The number of half-edges handed out so far. *)
Definition count (s : t) : nat :=
  edgeArrayCount s * HalfEdgeArraySize + edgeCount s.

(** The counters are consistent with the vector of arrays: either nothing
    was allocated yet, or [edgeArrayCount] is the last array and
    [edgeCount] a slot of it. *)
Definition ok (s : t) : Prop :=
  edgeCount s < HalfEdgeArraySize
  ∧ Forall (λ arr, length arr = HalfEdgeArraySize) (edges s)
  ∧ ((edges s = [] ∧ edgeArrayCount s = 0 ∧ edgeCount s = 0)
     ∨ length (edges s) = S (edgeArrayCount s)).

(** The arrays hold the half-edges of the flat arena [es]: the [h]-th
    half-edge created is slot [h mod HalfEdgeArraySize] of array
    [h / HalfEdgeArraySize]. *)
Definition represents (s : t) (es : list HalfEdge.t) : Prop :=
  count s = length es
  ∧ ∀ h, h < length es →
         slot s (h / HalfEdgeArraySize, h mod HalfEdgeArraySize) = es !! h.

End Arrays.

End HeapHack.

(** *** Sample inputs *)

Definition ptA : Coordinate := mkCoordinate 0 0.
Definition ptB : Coordinate := mkCoordinate 1 0.
Definition ptC : Coordinate := mkCoordinate 0 1.
Definition ptD : Coordinate := mkCoordinate (-1) 0.

(** Two ordering rules: always after the half-edge [insert] is called on,
    and after the last member of the ring. *)
Definition afterFirst : Coordinate → list Coordinate → Coordinate → nat :=
  λ _ _ _, 0.
Definition afterLast : Coordinate → list Coordinate → Coordinate → nat :=
  λ _ ds _, pred (length ds).

Definition triangle_calls : list (Coordinate * Coordinate) :=
  [(ptA, ptB); (ptB, ptC); (ptA, ptC)].
Definition triangle : EdgeGraph.t :=
  default EdgeGraph.empty (run afterFirst triangle_calls).

Definition star_calls : list (Coordinate * Coordinate) :=
  [(ptA, ptB); (ptA, ptC); (ptA, ptD)].
Definition star : EdgeGraph.t :=
  default EdgeGraph.empty (run afterLast star_calls).

Definition path_calls : list (Coordinate * Coordinate) :=
  [(ptA, ptB); (ptC, ptC); (ptB, ptA); (ptB, ptC)].
Definition path : EdgeGraph.t :=
  default EdgeGraph.empty (run afterFirst path_calls).

(** The triangle with one more edge at [ptA]. *)
Definition kite : EdgeGraph.t :=
  default EdgeGraph.empty (run afterFirst (triangle_calls ++ [(ptA, ptD)])).

(** A flat arena of three unlinked half-edges. *)
Definition flat3 : EdgeGraph.t :=
  {| EdgeGraph.edges := [HalfEdge.new ptA; HalfEdge.new ptB; HalfEdge.new ptC];
     EdgeGraph.vertexMap := ∅ |}.

(** An arena of arrays of two slots in which three half-edges were
    created. *)
Definition blankEdge : HalfEdge.t := HalfEdge.new (mkCoordinate 7 7).
Definition hack3 : HeapHack.t :=
  {| HeapHack.edges := [ [HalfEdge.new ptA; HalfEdge.new ptB];
                         [HalfEdge.new ptC; blankEdge] ];
     HeapHack.edgeArrayCount := 1;
     HeapHack.edgeCount := 1 |}.

(** The same arena after a fourth half-edge: the second array is full and
    a third one is allocated. *)
Definition hack4 : HeapHack.t :=
  {| HeapHack.edges := [ [HalfEdge.new ptA; HalfEdge.new ptB];
                         [HalfEdge.new ptC; HalfEdge.new ptD];
                         [blankEdge; blankEdge] ];
     HeapHack.edgeArrayCount := 2;
     HeapHack.edgeCount := 0 |}.

(** * Proofs *)

(** ** Coordinates *)

Lemma compareTo_eq a b : compareTo a b = 0%Z ↔ a = b.
Proof.
  unfold compareTo. destruct a as [ax ay], b as [bx by_]; simpl.
  destruct (Z.ltb_spec ax bx), (Z.ltb_spec bx ax),
           (Z.ltb_spec ay by_), (Z.ltb_spec by_ ay);
    split; intros E; try discriminate E; try lia;
    try (injection E; lia).
  f_equal; lia.
Qed.

Lemma equals2D_eq a b : equals2D a b = true ↔ a = b.
Proof.
  unfold equals2D. destruct a as [ax ay], b as [bx by_]; simpl.
  rewrite andb_true_iff, !Z.eqb_eq. split.
  - intros [-> ->]. done.
  - intros [= -> ->]. done.
Qed.

Lemma equals2D_refl a : equals2D a a = true.
Proof. by apply equals2D_eq. Qed.

Lemma equals2D_ne a b : a ≠ b → equals2D a b = false.
Proof. intros H. apply not_true_is_false. by rewrite equals2D_eq. Qed.

Lemma isValidEdge_ne o d : EdgeGraph.isValidEdge o d = true ↔ o ≠ d.
Proof.
  unfold EdgeGraph.isValidEdge. rewrite negb_true_iff, Z.eqb_neq, compareTo_eq.
  split; intros H ->; by apply H.
Qed.

(** ** The arena *)

Lemma orig_lt es h v : HalfEdge.orig es h = Some v → h < length es.
Proof.
  unfold HalfEdge.orig. intros H.
  destruct (es !! h) eqn:E; [|done]. by eapply lookup_lt_Some.
Qed.

Lemma sym_lt es h p : HalfEdge.sym es h = Some p → h < length es.
Proof.
  unfold HalfEdge.sym. intros H.
  destruct (es !! h) eqn:E; [|done]. by eapply lookup_lt_Some.
Qed.

Lemma next_lt es h p : HalfEdge.next es h = Some p → h < length es.
Proof.
  unfold HalfEdge.next. intros H.
  destruct (es !! h) eqn:E; [|done]. by eapply lookup_lt_Some.
Qed.

Lemma orig_is_Some es h : h < length es → is_Some (HalfEdge.orig es h).
Proof.
  intros H. apply lookup_lt_is_Some in H as [e E].
  unfold HalfEdge.orig. rewrite E. by eexists.
Qed.

Lemma dest_lt es h d : HalfEdge.dest es h = Some d → h < length es.
Proof.
  unfold HalfEdge.dest. intros H.
  destruct (HalfEdge.sym es h) eqn:E; [|done]. by eapply sym_lt.
Qed.

Lemma dest_sym es h s :
  HalfEdge.sym es h = Some (Some s) → HalfEdge.dest es h = HalfEdge.orig es s.
Proof. unfold HalfEdge.dest. by intros ->. Qed.

Lemma same_shape_refl es : same_shape es es.
Proof. by intros h. Qed.

Lemma same_shape_trans es1 es2 es3 :
  same_shape es1 es2 → same_shape es2 es3 → same_shape es1 es3.
Proof.
  intros H12 H23 h. destruct (H23 h) as [-> ->]. apply H12.
Qed.

Lemma same_shape_dest es es' h :
  same_shape es es' → HalfEdge.dest es' h = HalfEdge.dest es h.
Proof.
  intros H. unfold HalfEdge.dest. destruct (H h) as [_ ->].
  destruct (HalfEdge.sym es h) as [[s|]|]; simpl; try done. apply H.
Qed.

Lemma same_shape_length es es' : same_shape es es' → length es' = length es.
Proof.
  intros H.
  destruct (Nat.lt_trichotomy (length es') (length es)) as [Hlt|[Heq|Hlt]];
    [|done|]; exfalso.
  - destruct (orig_is_Some _ _ Hlt) as [v Hv].
    destruct (H (length es')) as [Ho _]. rewrite Hv in Ho.
    apply orig_lt in Ho. lia.
  - destruct (orig_is_Some _ _ Hlt) as [v Hv].
    destruct (H (length es)) as [Ho _]. rewrite Hv in Ho.
    symmetry in Ho. apply orig_lt in Ho. lia.
Qed.

Lemma setNext_is_Some es h p :
  h < length es → is_Some (HalfEdge.setNext es h p).
Proof.
  intros H. apply lookup_lt_is_Some in H as [e E].
  unfold HalfEdge.setNext. rewrite E. by eexists.
Qed.

Lemma setNext_spec es h p es' :
  HalfEdge.setNext es h p = Some es' →
  same_shape es es'
  ∧ ∀ k, HalfEdge.next es' k = if decide (k = h) then Some p
                               else HalfEdge.next es k.
Proof.
  unfold HalfEdge.setNext. destruct (es !! h) as [e|] eqn:E; [|done].
  intros [= <-]. pose proof (lookup_lt_Some _ _ _ E) as Hlt.
  split.
  - intros k. unfold HalfEdge.orig, HalfEdge.sym.
    destruct (decide (k = h)) as [->|Hne].
    + rewrite list_lookup_insert_eq by done. by rewrite E.
    + by rewrite list_lookup_insert_ne by done.
  - intros k. unfold HalfEdge.next. destruct (decide (k = h)) as [->|Hne].
    + by rewrite list_lookup_insert_eq by done.
    + by rewrite list_lookup_insert_ne by done.
Qed.

Lemma link_fresh es a b :
  HalfEdge.link (es ++ [a; b]) (length es) (S (length es))
  = Some (es ++ [ HalfEdge.mk (HalfEdge.m_orig a) (Some (S (length es)))
                              (Some (length es));
                  HalfEdge.mk (HalfEdge.m_orig b) (Some (length es))
                              (Some (S (length es))) ]).
Proof.
  unfold HalfEdge.link, HalfEdge.setSym, HalfEdge.setNext.
  repeat (rewrite ?lookup_app_r, ?insert_app_r_alt, ?Nat.sub_diag by lia;
          replace (S (length es) - length es) with 1 by lia; simpl).
  done.
Qed.

Lemma create_eq p0 p1 g :
  EdgeGraph.create p0 p1 g
  = Some (length (EdgeGraph.edges g),
          {| EdgeGraph.edges := with_new_edge (EdgeGraph.edges g) p0 p1;
             EdgeGraph.vertexMap := EdgeGraph.vertexMap g |}).
Proof.
  unfold EdgeGraph.create, EdgeGraph.bind, EdgeGraph.createEdge,
    EdgeGraph.writing, EdgeGraph.ret, with_new_edge. simpl.
  rewrite length_app, <- app_assoc. simpl.
  replace (length (EdgeGraph.edges g) + 1) with (S (length (EdgeGraph.edges g)))
    by lia.
  by rewrite link_fresh.
Qed.

(** ** Rings *)

Lemma linked_frame es es' l z :
  (∀ h, h ∈ l → HalfEdge.next es' h = HalfEdge.next es h) →
  linked es l z → linked es' l z.
Proof.
  induction l as [|a l IH]; simpl; [done|]. intros H [H1 H2]. split.
  - rewrite H; [done|]. by left.
  - apply IH; [|done]. intros h Hh. apply H. by right.
Qed.

Lemma hd_app (z : nat) l1 l2 : hd z (l1 ++ l2) = hd (hd z l2) l1.
Proof. by destruct l1. Qed.

Lemma linked_app es l1 l2 z :
  linked es (l1 ++ l2) z ↔ linked es l1 (hd z l2) ∧ linked es l2 z.
Proof.
  induction l1 as [|a l1 IH]; simpl.
  - tauto.
  - rewrite IH, hd_app. tauto.
Qed.

Lemma linked_lt es l z h : linked es l z → h ∈ l → h < length es.
Proof.
  induction l as [|a l IH]; simpl; intros Hl Hin.
  - by apply elem_of_nil in Hin.
  - destruct Hl as [Hn Hl]. apply elem_of_cons in Hin as [->|Hin].
    + by eapply next_lt.
    + by apply IH.
Qed.

Lemma NoDup_bounded_length (l : list nat) n :
  NoDup l → (∀ h, h ∈ l → h < n) → length l ≤ n.
Proof.
  intros Hnd Hlt. replace n with (length (seq 0 n)) by apply length_seq.
  apply submseteq_length, NoDup_submseteq; [done|].
  intros h Hh. apply elem_of_seq. specialize (Hlt h Hh). lia.
Qed.

Lemma is_ring_cons es r l : is_ring es r l → ∃ t, l = r :: t ∧ r ∉ t.
Proof.
  intros (Hh & Hnd & _). destruct l as [|a t]; [done|].
  injection Hh as ->. exists t. split; [done|]. by apply NoDup_cons in Hnd as [? _].
Qed.

Lemma is_ring_length es r l : is_ring es r l → 0 < length l ≤ length es.
Proof.
  intros H. destruct (is_ring_cons _ _ _ H) as (t & -> & _).
  destruct H as (_ & Hnd & Hl). split; [simpl; lia|].
  apply NoDup_bounded_length; [done|]. intros h. by apply linked_lt with (z := r).
Qed.

Lemma is_ring_head es r l : is_ring es r l → r ∈ l.
Proof.
  intros H. destruct (is_ring_cons _ _ _ H) as (t & -> & _). by left.
Qed.

(** The loop of [find], run along a linked stretch that ends at [self]. *)
Lemma find_from_linked es r d t :
  ∀ cur fuel,
    linked es (cur :: t) r → r ∉ t →
    (∀ h, h ∈ cur :: t → is_Some (HalfEdge.dest es h)) →
    length t < fuel →
    ∃ res, HalfEdge.find_from fuel es r cur d = Some res
           ∧ match res with
             | Some h => h ∈ cur :: t ∧ HalfEdge.dest es h = Some d
             | None => ∀ h, h ∈ cur :: t → HalfEdge.dest es h ≠ Some d
             end.
Proof.
  induction t as [|a t IH]; intros cur fuel [Hn Hl] Hr Hd Hf;
    (destruct fuel as [|fuel]; [simpl in Hf; lia|]); simpl;
    destruct (Hd cur) as [dc Hdc]; [by left| |by left|];
    rewrite Hdc; simpl; destruct (equals2D dc d) eqn:E.
  - apply equals2D_eq in E as ->. exists (Some cur). repeat split; [by left|done].
  - rewrite Hn. simpl. rewrite Nat.eqb_refl. exists None. split; [done|].
    intros h Hh. apply list_elem_of_singleton in Hh as ->. rewrite Hdc.
    intros [= ->]. by rewrite equals2D_refl in E.
  - apply equals2D_eq in E as ->. exists (Some cur). repeat split; [by left|done].
  - rewrite Hn. simpl.
    assert (a ≠ r) as Har by (intros ->; apply Hr; by left).
    apply Nat.eqb_neq in Har as ->.
    destruct (IH a fuel) as (res & Hres & Hpost); [done| | |simpl in Hf; lia|].
    { intros Hin. apply Hr. by right. }
    { intros h Hh. apply Hd. by right. }
    exists res. split; [done|]. destruct res as [h|].
    + destruct Hpost as [Hin Hdh]. split; [by right|done].
    + intros h Hh. apply elem_of_cons in Hh as [->|Hh]; [|by apply Hpost].
      rewrite Hdc. intros [= ->]. by rewrite equals2D_refl in E.
Qed.

Lemma find_ring es r l d :
  is_ring es r l → (∀ h, h ∈ l → is_Some (HalfEdge.dest es h)) →
  ∃ res, HalfEdge.find es r d = Some res
         ∧ match res with
           | Some h => h ∈ l ∧ HalfEdge.dest es h = Some d
           | None => ∀ h, h ∈ l → HalfEdge.dest es h ≠ Some d
           end.
Proof.
  intros H Hd. pose proof (is_ring_length _ _ _ H) as Hlen.
  destruct (is_ring_cons _ _ _ H) as (t & -> & Hr). destruct H as (_ & _ & Hl).
  apply find_from_linked; try done. simpl in Hlen. lia.
Qed.

Lemma ring_from_linked es r t :
  ∀ cur fuel,
    linked es (cur :: t) r → r ∉ t → length t < fuel →
    HalfEdge.ring_from fuel es r cur = Some (cur :: t).
Proof.
  induction t as [|a t IH]; intros cur fuel [Hn Hl] Hr Hf;
    (destruct fuel as [|fuel]; [simpl in Hf; lia|]); simpl; rewrite Hn; simpl.
  - by rewrite Nat.eqb_refl.
  - assert (a ≠ r) as Har by (intros ->; apply Hr; by left).
    apply Nat.eqb_neq in Har as ->.
    rewrite (IH a fuel); [done|done| |simpl in Hf; lia].
    intros Hin. apply Hr. by right.
Qed.

Lemma ring_is_ring es r l : is_ring es r l → HalfEdge.ring es r = Some l.
Proof.
  intros H. pose proof (is_ring_length _ _ _ H) as Hlen.
  destruct (is_ring_cons _ _ _ H) as (t & -> & Hr). destruct H as (_ & _ & Hl).
  apply ring_from_linked; try done. simpl in Hlen. lia.
Qed.

Lemma nextN_linked es z t :
  ∀ c k, linked es (c :: t) z → k ≤ S (length t) →
         nextN es k c = (c :: t ++ [z]) !! k.
Proof.
  induction t as [|a t IH]; intros c k [Hn Hl] Hk.
  - destruct k as [|[|k]]; simpl in *; try lia; [done|]. by rewrite Hn.
  - destruct k as [|k]; [done|]. simpl. rewrite Hn. simpl.
    rewrite IH; [done|done|simpl in Hk; lia].
Qed.

Lemma insertAfter_spec es p e save :
  HalfEdge.next es p = Some save → e < length es →
  ∃ es', HalfEdge.insertAfter es p e = Some es' ∧ same_shape es es'
    ∧ ∀ k, HalfEdge.next es' k =
           if decide (k = e) then Some save
           else if decide (k = p) then Some (Some e)
           else HalfEdge.next es k.
Proof.
  intros Hn He. unfold HalfEdge.insertAfter. rewrite Hn. simpl.
  destruct (setNext_is_Some es p (Some e)) as [es1 E1]; [by eapply next_lt|].
  rewrite E1. simpl. apply setNext_spec in E1 as [Hs1 Hn1].
  destruct (setNext_is_Some es1 e save) as [es2 E2].
  { by rewrite (same_shape_length _ _ Hs1). }
  exists es2. split; [done|]. apply setNext_spec in E2 as [Hs2 Hn2]. split.
  - by eapply same_shape_trans.
  - intros k. rewrite Hn2. destruct (decide (k = e)); [done|]. apply Hn1.
Qed.

(** ** The arena after [create] *)

Section Fresh.

Variables (es : list HalfEdge.t) (o d : Coordinate).

Local Abbreviation n := (length es).
Local Abbreviation es1 := (with_new_edge es o d).

Lemma fresh_lookup_old h : h < n → es1 !! h = es !! h.
Proof. intros H. by apply lookup_app_l. Qed.

Lemma fresh_lookup_e0 : es1 !! n = Some (HalfEdge.mk o (Some (S n)) (Some n)).
Proof.
  unfold with_new_edge. rewrite lookup_app_r by done. by rewrite Nat.sub_diag.
Qed.

Lemma fresh_lookup_e1 :
  es1 !! S n = Some (HalfEdge.mk d (Some n) (Some (S n))).
Proof.
  unfold with_new_edge. rewrite lookup_app_r by lia.
  by replace (S n - n) with 1 by lia.
Qed.

Lemma fresh_length : length es1 = S (S n).
Proof. unfold with_new_edge. rewrite length_app. simpl. lia. Qed.

Lemma fresh_cases h : h < length es1 → h < n ∨ h = n ∨ h = S n.
Proof. rewrite fresh_length. lia. Qed.

Lemma fresh_orig_old h : h < n → HalfEdge.orig es1 h = HalfEdge.orig es h.
Proof. intros H. unfold HalfEdge.orig. by rewrite fresh_lookup_old. Qed.

Lemma fresh_sym_old h : h < n → HalfEdge.sym es1 h = HalfEdge.sym es h.
Proof. intros H. unfold HalfEdge.sym. by rewrite fresh_lookup_old. Qed.

Lemma fresh_next_old h : h < n → HalfEdge.next es1 h = HalfEdge.next es h.
Proof. intros H. unfold HalfEdge.next. by rewrite fresh_lookup_old. Qed.

Lemma fresh_orig_e0 : HalfEdge.orig es1 n = Some o.
Proof. unfold HalfEdge.orig. by rewrite fresh_lookup_e0. Qed.

Lemma fresh_orig_e1 : HalfEdge.orig es1 (S n) = Some d.
Proof. unfold HalfEdge.orig. by rewrite fresh_lookup_e1. Qed.

Lemma fresh_sym_e0 : HalfEdge.sym es1 n = Some (Some (S n)).
Proof. unfold HalfEdge.sym. by rewrite fresh_lookup_e0. Qed.

Lemma fresh_sym_e1 : HalfEdge.sym es1 (S n) = Some (Some n).
Proof. unfold HalfEdge.sym. by rewrite fresh_lookup_e1. Qed.

Lemma fresh_next_e0 : HalfEdge.next es1 n = Some (Some n).
Proof. unfold HalfEdge.next. by rewrite fresh_lookup_e0. Qed.

Lemma fresh_next_e1 : HalfEdge.next es1 (S n) = Some (Some (S n)).
Proof. unfold HalfEdge.next. by rewrite fresh_lookup_e1. Qed.

Lemma fresh_dest_e0 : HalfEdge.dest es1 n = Some d.
Proof. rewrite (dest_sym _ _ _ fresh_sym_e0). apply fresh_orig_e1. Qed.

Lemma fresh_dest_e1 : HalfEdge.dest es1 (S n) = Some o.
Proof. rewrite (dest_sym _ _ _ fresh_sym_e1). apply fresh_orig_e0. Qed.

(** Every old half-edge has its [sym] among the old ones. *)
Hypothesis sym_closed : ∀ h, h < n →
  ∃ s, HalfEdge.sym es h = Some (Some s) ∧ HalfEdge.sym es s = Some (Some h).

Lemma fresh_dest_old h : h < n → HalfEdge.dest es1 h = HalfEdge.dest es h.
Proof.
  intros H. destruct (sym_closed h H) as (s & Hs & Hs').
  rewrite (dest_sym es h s Hs), (dest_sym es1 h s).
  - apply fresh_orig_old. by eapply sym_lt.
  - by rewrite fresh_sym_old.
Qed.

Lemma fresh_half_edge h a b :
  half_edge es1 h a b ↔
    (h < n ∧ half_edge es h a b) ∨ (h = n ∧ a = o ∧ b = d)
    ∨ (h = S n ∧ a = d ∧ b = o).
Proof.
  unfold half_edge. split.
  - intros [Ho Hd]. destruct (fresh_cases h) as [Hlt | [-> | ->] ].
    + by eapply orig_lt.
    + left. rewrite fresh_orig_old, fresh_dest_old in * by done. done.
    + right; left. rewrite fresh_orig_e0 in Ho. rewrite fresh_dest_e0 in Hd.
      naive_solver.
    + right; right. rewrite fresh_orig_e1 in Ho. rewrite fresh_dest_e1 in Hd.
      naive_solver.
  - intros [ [Hlt [Ho Hd]] | [ (-> & -> & ->) | (-> & -> & ->) ] ].
    + by rewrite fresh_orig_old, fresh_dest_old.
    + by rewrite fresh_orig_e0, fresh_dest_e0.
    + by rewrite fresh_orig_e1, fresh_dest_e1.
Qed.

End Fresh.

Section Verification.

(** Everything below holds whatever the ordering rule of [HalfEdge::insert]
    is. *)
Variable ip : Coordinate → list Coordinate → Coordinate → nat.

(** [HalfEdge::insert] on a well-formed ring: the new half-edge becomes a
    member, no member is lost, and nothing else changes. *)
Lemma insert_spec es r l e v :
  is_ring es r l →
  (∀ h, h ∈ l → HalfEdge.orig es h = Some v) →
  (∀ h, h ∈ l → is_Some (HalfEdge.dest es h)) →
  HalfEdge.orig es e = Some v → is_Some (HalfEdge.dest es e) → e ∉ l →
  ∃ es' l', HalfEdge.insert ip es r e = Some es' ∧ same_shape es es'
    ∧ is_ring es' r l' ∧ l' ≡ₚ e :: l
    ∧ ∀ k, k ∉ l → k ≠ e → HalfEdge.next es' k = HalfEdge.next es k.
Proof.
  intros Hring Ho Hd Hoe [de Hde] Hel.
  pose proof (is_ring_length _ _ _ Hring) as Hlen.
  unfold HalfEdge.insert.
  rewrite (Ho r (is_ring_head _ _ _ Hring)), Hoe. simpl.
  rewrite equals2D_refl. simpl. rewrite (ring_is_ring _ _ _ Hring). simpl.
  destruct (mapM (HalfEdge.dest es) l) as [ds|] eqn:Eds; simpl.
  2:{ assert (is_Some (mapM (HalfEdge.dest es) l)) as [? Hc]; [|congruence].
      apply mapM_is_Some, Forall_forall. intros h Hh. by apply Hd. }
  rewrite Hde. simpl.
  set (i := ip v ds de mod length l).
  assert (i < length l) as Hi by (apply Nat.mod_upper_bound; lia).
  apply lookup_lt_is_Some in Hi as [p Hp]. rewrite Hp. simpl.
  pose proof (take_drop_middle _ _ _ Hp) as Hsplit.
  set (l1 := take i l) in Hsplit. set (l2 := drop (S i) l) in Hsplit.
  clearbody l1 l2. clear Hp Eds i.
  destruct Hring as (Hhd & Hnd & Hl).
  rewrite <- Hsplit in Hl. apply linked_app in Hl as [Hl1 [Hnp Hl2]].
  simpl in Hl1.
  destruct (insertAfter_spec es p e _ Hnp) as (es' & Hins & Hshape & Hnext).
  { by eapply orig_lt. }
  assert (p ∈ l) as Hpl
    by (rewrite <- Hsplit; apply elem_of_app; right; by left).
  assert (e ≠ p) as Hep by (intros ->; done).
  assert (NoDup (l1 ++ p :: l2)) as Hnd' by by rewrite Hsplit.
  apply NoDup_app in Hnd' as (Hnd1 & Hdisj & Hnd2).
  apply NoDup_cons in Hnd2 as [Hp2 Hnd2].
  exists es', (l1 ++ p :: e :: l2). split; [done|]. split; [done|].
  assert ((l1 ++ p :: e :: l2) ≡ₚ e :: l) as Hperm.
  { rewrite <- Hsplit.
    rewrite (Permutation_middle l1 (p :: l2) e). simpl.
    apply Permutation_app_head, perm_swap. }
  repeat split.
  - rewrite <- Hhd, <- Hsplit. by destruct l1.
  - rewrite Hperm. apply NoDup_cons. by split.
  - apply linked_app. simpl. split; [|split; [|split]].
    + eapply linked_frame; [|exact Hl1]. intros h Hh. rewrite Hnext.
      assert (h ∈ l) by (rewrite <- Hsplit; apply elem_of_app; by left).
      destruct (decide (h = e)) as [->|_]; [done|].
      destruct (decide (h = p)) as [->|_]; [|done].
      exfalso. apply (Hdisj p Hh). by left.
    + rewrite Hnext. destruct (decide (p = e)); [congruence|].
      by destruct (decide (p = p)).
    + rewrite Hnext. by destruct (decide (e = e)).
    + eapply linked_frame; [|exact Hl2]. intros h Hh. rewrite Hnext.
      assert (h ∈ l)
        by (rewrite <- Hsplit; apply elem_of_app; right; by right).
      destruct (decide (h = e)) as [->|_]; [done|].
      destruct (decide (h = p)) as [->|_]; [done|done].
  - done.
  - intros k Hk Hke. rewrite Hnext. destruct (decide (k = e)); [done|].
    destruct (decide (k = p)) as [->|]; [done|done].
Qed.

(** ** The invariant *)

Lemma wfP_dest_is_Some P g h :
  wfP P g → h < length (EdgeGraph.edges g) →
  is_Some (HalfEdge.dest (EdgeGraph.edges g) h).
Proof.
  intros Hwf Hlt. destruct (wf_sym _ _ Hwf h Hlt) as (s & Hs & Hs').
  rewrite (dest_sym _ _ _ Hs). apply orig_is_Some. by eapply sym_lt.
Qed.

Lemma wfP_half_edge_sym P g h a b :
  wfP P g → half_edge (EdgeGraph.edges g) h a b →
  ∃ s, HalfEdge.sym (EdgeGraph.edges g) h = Some (Some s)
       ∧ half_edge (EdgeGraph.edges g) s b a.
Proof.
  intros Hwf [Ho Hd].
  destruct (wf_sym _ _ Hwf h) as (s & Hs & Hs'); [by eapply orig_lt|].
  exists s. split; [done|]. split.
  - by rewrite <- (dest_sym _ _ _ Hs).
  - by rewrite (dest_sym _ _ _ Hs').
Qed.

(** After [create], the two new half-edges wait to be spliced in. *)
Lemma create_wfP g o d :
  wf g → o ≠ d → (∀ h, ¬ half_edge (EdgeGraph.edges g) h o d) →
  wfP {[ length (EdgeGraph.edges g); S (length (EdgeGraph.edges g)) ]}
      {| EdgeGraph.edges := with_new_edge (EdgeGraph.edges g) o d;
         EdgeGraph.vertexMap := EdgeGraph.vertexMap g |}.
Proof.
  intros Hwf Hod Hno. destruct g as [es vm]. simpl in *.
  pose proof (wf_sym _ _ Hwf) as Hsym. simpl in Hsym.
  assert (∀ h, ¬ half_edge es h d o) as Hno'.
  { intros h Hh. destruct (wfP_half_edge_sym _ _ _ _ _ Hwf Hh) as (s & _ & Hs).
    by apply (Hno s). }
  constructor; simpl.
  - intros h Hlt. destruct (fresh_cases _ _ _ _ Hlt) as [Hold | [-> | ->] ].
    + destruct (Hsym h Hold) as (s & Hs & Hs'). exists s.
      rewrite !fresh_sym_old; [done| by eapply sym_lt | done].
    + exists (S (length es)). by rewrite fresh_sym_e0, fresh_sym_e1.
    + exists (length es). by rewrite fresh_sym_e0, fresh_sym_e1.
  - intros h Hh. apply elem_of_union in Hh as [Hh|Hh];
      apply elem_of_singleton in Hh as ->.
    + apply fresh_next_e0.
    + apply fresh_next_e1.
  - intros v p Hv. destruct (wf_vertex _ _ Hwf v p Hv) as (r & l & -> & Hring & Hmem).
    simpl in *. exists r, l. split; [done|]. split.
    + destruct Hring as (? & ? & Hl). repeat split; try done.
      eapply linked_frame; [|exact Hl]. intros h Hh. apply fresh_next_old.
      by eapply linked_lt.
    + intros h. rewrite Hmem. split.
      * intros [Ho _]. pose proof (orig_lt _ _ _ Ho) as Hlt.
        rewrite fresh_orig_old by done. split; [done|].
        rewrite elem_of_union, !elem_of_singleton. lia.
      * intros [Ho Hp]. rewrite elem_of_union, !elem_of_singleton in Hp.
        pose proof (orig_lt _ _ _ Ho) as Hlt.
        apply fresh_cases in Hlt as [Hlt | [-> | ->] ]; [|tauto|tauto].
        rewrite fresh_orig_old in Ho by done. split; [done|]. apply not_elem_of_empty.
  - intros h v Ho Hp. rewrite elem_of_union, !elem_of_singleton in Hp.
    pose proof (orig_lt _ _ _ Ho) as Hlt.
    apply fresh_cases in Hlt as [Hlt | [-> | ->] ]; [|tauto|tauto].
    rewrite fresh_orig_old in Ho by done.
    apply (wf_known _ _ Hwf h v Ho). apply not_elem_of_empty.
  - intros h1 h2 a b Ho1 Ho2 Hd1 Hd2.
    assert (half_edge (with_new_edge es o d) h1 a b) as H1 by done.
    assert (half_edge (with_new_edge es o d) h2 a b) as H2 by done.
    apply fresh_half_edge in H1; [|done]. apply fresh_half_edge in H2; [|done].
    destruct H1 as [ [_ [Ha1 Hb1] ] | [ (-> & -> & ->) | (-> & -> & ->) ] ];
    destruct H2 as [ [_ [Ha2 Hb2] ] | [ (-> & E1 & E2) | (-> & E1 & E2) ] ];
      try done; try congruence.
    + by apply (wf_simple _ _ Hwf h1 h2 a b).
    + subst. exfalso. by apply (Hno h1).
    + subst. exfalso. by apply (Hno' h1).
    + exfalso. by apply (Hno h2).
    + exfalso. by apply (Hno' h2).
Qed.

(** One half of [EdgeGraph::insert]: a waiting half-edge joins its
    origin. *)
Lemma attach_spec P g e v :
  wfP P g → e ∈ P → HalfEdge.orig (EdgeGraph.edges g) e = Some v →
  ∃ g', attach ip v (default None (EdgeGraph.vertexMap g !! v)) e g
          = Some (tt, g')
    ∧ wfP (P ∖ {[e]}) g'
    ∧ same_shape (EdgeGraph.edges g) (EdgeGraph.edges g').
Proof.
  intros Hwf He Ho. destruct g as [es vm]; simpl in *.
  destruct (vm !! v) as [p|] eqn:Ev; simpl.
  - destruct (wf_vertex _ _ Hwf v p Ev) as (r & l & -> & Hring & Hmem).
    simpl in *.
    destruct (insert_spec es r l e v Hring)
      as (es' & l' & Hins & Hshape & Hring' & Hperm & Hframe).
    { intros h Hh. by apply Hmem. }
    { intros h Hh. apply (wfP_dest_is_Some _ _ _ Hwf). simpl.
      apply Hmem in Hh as [Hoh _]. by eapply orig_lt. }
    { done. }
    { apply (wfP_dest_is_Some _ _ _ Hwf). simpl. by eapply orig_lt. }
    { intros Hin. apply Hmem in Hin as [_ Hn]. done. }
    exists {| EdgeGraph.edges := es'; EdgeGraph.vertexMap := vm |}.
    unfold EdgeGraph.writing. simpl. rewrite Hins. simpl.
    split; [done|]. split; [|done].
    constructor; simpl.
    + intros h Hlt. rewrite (same_shape_length _ _ Hshape) in Hlt.
      destruct (wf_sym _ _ Hwf h Hlt) as (s & Hs & Hs'). exists s.
      destruct (Hshape h) as [_ ->]. destruct (Hshape s) as [_ ->]. done.
    + intros h Hh. apply elem_of_difference in Hh as [HhP Hhe].
      rewrite not_elem_of_singleton in Hhe.
      rewrite Hframe; [by apply (wf_pending _ _ Hwf)| |done].
      intros Hin. apply Hmem in Hin as [_ ?]. done.
    + intros k p Hk. destruct (decide (k = v)) as [->|Hkv].
      * rewrite Ev in Hk. injection Hk as <-. exists r, l'.
        split; [done|]. split; [done|]. intros h.
        rewrite Hperm, elem_of_cons, Hmem. destruct (Hshape h) as [-> _].
        rewrite elem_of_difference, elem_of_singleton. split.
        -- intros [->|[? ?] ]; (split; [done|]); tauto.
        -- intros [Hoh Hn]. destruct (decide (h = e)); [by left|]. right.
           split; [done|]. tauto.
      * destruct (wf_vertex _ _ Hwf k p Hk) as (rk & lk & -> & Hrk & Hmk).
        simpl in *. exists rk, lk. split; [done|]. split.
        -- destruct Hrk as (? & ? & Hl). repeat split; try done.
           eapply linked_frame; [|exact Hl]. intros h Hh.
           apply Hmk in Hh as [Hoh _]. apply Hframe.
           ++ intros Hin. apply Hmem in Hin as [Hov _]. congruence.
           ++ intros ->. congruence.
        -- intros h. rewrite Hmk. destruct (Hshape h) as [-> _].
           rewrite elem_of_difference, elem_of_singleton. split.
           ++ intros [? ?]. split; [done|]. tauto.
           ++ intros [Hoh Hn]. split; [done|]. intros HP. apply Hn.
              split; [done|]. intros ->. congruence.
    + intros h u Hoh Hn. destruct (Hshape h) as [Hoo _]. rewrite Hoo in Hoh.
      rewrite elem_of_difference, elem_of_singleton in Hn.
      destruct (decide (h = e)) as [->|].
      * assert (u = v) as -> by congruence. by rewrite Ev.
      * apply (wf_known _ _ Hwf h u Hoh). tauto.
    + intros h1 h2 a b. rewrite !(same_shape_dest _ _ _ Hshape).
      destruct (Hshape h1) as [-> _], (Hshape h2) as [-> _].
      apply (wf_simple _ _ Hwf).
  - exists {| EdgeGraph.edges := es;
              EdgeGraph.vertexMap := <[v := Some e]> vm |}.
    split; [done|]. split; [|apply same_shape_refl].
    constructor; simpl.
    + apply (wf_sym _ _ Hwf).
    + intros h Hh. apply elem_of_difference in Hh as [? _].
      by apply (wf_pending _ _ Hwf).
    + intros k p Hk. destruct (decide (k = v)) as [->|Hkv].
      * rewrite lookup_insert_eq in Hk. injection Hk as <-.
        exists e, [e]. split; [done|]. split.
        -- repeat split; [apply NoDup_singleton|]. by apply (wf_pending _ _ Hwf).
        -- intros h.
           rewrite list_elem_of_singleton, elem_of_difference, elem_of_singleton.
           split.
           ++ intros ->. split; [done|]. tauto.
           ++ intros [Hoh Hn]. destruct (decide (h = e)); [done|]. exfalso.
              destruct (wf_known _ _ Hwf h v Hoh) as [? Hc]; [tauto|].
              simpl in Hc. congruence.
      * rewrite lookup_insert_ne in Hk by done.
        destruct (wf_vertex _ _ Hwf k p Hk) as (rk & lk & -> & Hrk & Hmk).
        simpl in *. exists rk, lk. split; [done|]. split; [done|].
        intros h. rewrite Hmk.
        rewrite elem_of_difference, elem_of_singleton. split.
        -- intros [? ?]. split; [done|]. tauto.
        -- intros [Hoh Hn]. split; [done|]. intros HP. apply Hn.
           split; [done|]. intros ->. congruence.
    + intros h u Hoh Hn. destruct (decide (u = v)) as [->|Huv].
      * rewrite lookup_insert_eq. by eexists.
      * rewrite lookup_insert_ne by done. apply (wf_known _ _ Hwf h u Hoh).
        intros HP. apply Hn. apply elem_of_difference. split; [done|].
        rewrite elem_of_singleton. intros ->. simpl in *. congruence.
    + apply (wf_simple _ _ Hwf).
Qed.

(** [EdgeGraph::insert] is [create] followed by the two halves. *)
Lemma insert_unfold o d eAdj g e g1 g2 s :
  EdgeGraph.create o d g = Some (e, g1) →
  attach ip o eAdj e g1 = Some (tt, g2) →
  HalfEdge.sym (EdgeGraph.edges g2) e = Some (Some s) →
  EdgeGraph.insert ip o d eAdj g =
  match attach ip d (default None (EdgeGraph.vertexMap g2 !! d)) s g2 with
  | Some (_, g3) => Some (e, g3)
  | None => None
  end.
Proof.
  intros Hc Ha Hs. unfold EdgeGraph.insert, EdgeGraph.bind. rewrite Hc.
  unfold attach in Ha. destruct eAdj as [r|]; rewrite Ha.
  all: unfold EdgeGraph.lookupVertex, attach, EdgeGraph.writing,
    EdgeGraph.reading, EdgeGraph.setVertex, EdgeGraph.ret.
  all: destruct (default None (EdgeGraph.vertexMap g2 !! d)) as [rd|]; simpl;
    rewrite Hs; simpl; try done.
  all: by destruct (HalfEdge.insert _ _ _ _).
Qed.

Lemma same_shape_half_edge es es' h a b :
  same_shape es es' → half_edge es' h a b ↔ half_edge es h a b.
Proof.
  intros H. unfold half_edge. rewrite (same_shape_dest _ _ _ H).
  by destruct (H h) as [-> _].
Qed.

(** The insertion of an edge that the graph does not hold yet. *)
Lemma insert_fresh T g o d :
  wf g → records T (EdgeGraph.edges g) → o ≠ d →
  (∀ h, ¬ half_edge (EdgeGraph.edges g) h o d) →
  ∃ g', EdgeGraph.insert ip o d (default None (EdgeGraph.vertexMap g !! o)) g
          = Some (length (EdgeGraph.edges g), g')
    ∧ wf g' ∧ records ((o, d) :: T) (EdgeGraph.edges g')
    ∧ half_edge (EdgeGraph.edges g') (length (EdgeGraph.edges g)) o d
    ∧ length (EdgeGraph.edges g') = S (S (length (EdgeGraph.edges g))).
Proof.
  intros Hwf Hrec Hod Hno.
  pose proof (create_wfP g o d Hwf Hod Hno) as Hwf1.
  pose proof (wf_sym _ _ Hwf) as Hsym.
  pose proof (create_eq o d g) as Hcreate.
  set (n := length (EdgeGraph.edges g)) in *.
  set (g1 := EdgeGraph.mk (with_new_edge _ _ _) _) in *.
  destruct (attach_spec _ g1 n o Hwf1) as (g2 & Hatt2 & Hwf2 & Hsh2).
  { apply elem_of_union. left. by apply elem_of_singleton. }
  { apply fresh_orig_e0. }
  simpl in Hatt2.
  assert (HalfEdge.sym (EdgeGraph.edges g2) n = Some (Some (S n))) as Hs2.
  { destruct (Hsh2 n) as [_ ->]. apply fresh_sym_e0. }
  rewrite (insert_unfold _ _ _ _ _ _ _ _ Hcreate Hatt2 Hs2).
  destruct (attach_spec _ g2 (S n) d Hwf2) as (g3 & Hatt3 & Hwf3 & Hsh3).
  { apply elem_of_difference. split.
    - apply elem_of_union. right. by apply elem_of_singleton.
    - rewrite elem_of_singleton. lia. }
  { destruct (Hsh2 (S n)) as [-> _]. apply fresh_orig_e1. }
  rewrite Hatt3. exists g3. split; [done|].
  pose proof (same_shape_trans _ _ _ Hsh2 Hsh3) as Hsh.
  assert (∀ h a b, half_edge (EdgeGraph.edges g3) h a b ↔
            (h < n ∧ half_edge (EdgeGraph.edges g) h a b)
            ∨ (h = n ∧ a = o ∧ b = d) ∨ (h = S n ∧ a = d ∧ b = o)) as Hhe.
  { intros h a b. rewrite (same_shape_half_edge _ _ _ _ _ Hsh).
    by apply fresh_half_edge. }
  split; [|split; [|split] ].
  - assert (({[n; S n]} ∖ {[n]}) ∖ {[S n]} = (∅ : gset nat)) as Hempty.
    { apply set_eq. intros h.
      rewrite !elem_of_difference, elem_of_union, !elem_of_singleton.
      split; [tauto|]. intros Hh. by apply not_elem_of_empty in Hh. }
    by rewrite Hempty in Hwf3.
  - intros a b. split.
    + intros [h Hh]. apply Hhe in Hh
        as [ [_ Hh] | [ (_ & -> & ->) | (_ & -> & ->) ] ].
      * destruct (proj1 (Hrec a b)) as [Hab Hin]; [by exists h|].
        split; [done|]. rewrite !elem_of_cons. tauto.
      * split; [done|]. left. by left.
      * split; [done|]. right. by left.
    + intros [Hab Hin]. rewrite !elem_of_cons in Hin.
      destruct Hin as [ [ [= -> ->] | Hin ] | [ [= -> ->] | Hin ] ].
      * exists n. apply Hhe. tauto.
      * destruct (proj2 (Hrec a b)) as [h Hh]; [tauto|].
        exists h. apply Hhe. left. split; [|done].
        destruct Hh as [Hh _]. by eapply orig_lt.
      * exists (S n). apply Hhe. tauto.
      * destruct (proj2 (Hrec a b)) as [h Hh]; [tauto|].
        exists h. apply Hhe. left. split; [|done].
        destruct Hh as [Hh _]. by eapply orig_lt.
  - apply Hhe. tauto.
  - rewrite (same_shape_length _ _ Hsh). apply fresh_length.
Qed.

Lemma records_again T g h o d :
  wf g → records T (EdgeGraph.edges g) → half_edge (EdgeGraph.edges g) h o d →
  records ((o, d) :: T) (EdgeGraph.edges g).
Proof.
  intros Hwf Hrec Hh a b. split.
  - intros Hex. destruct (proj1 (Hrec a b) Hex) as [? ?]. split; [done|].
    rewrite !elem_of_cons. tauto.
  - intros [Hab Hin]. rewrite !elem_of_cons in Hin.
    destruct Hin as [ [ [= -> ->] | Hin ] | [ [= -> ->] | Hin ] ].
    + by exists h.
    + apply Hrec. tauto.
    + destruct (wfP_half_edge_sym _ _ _ _ _ Hwf Hh) as (s & _ & Hs). by exists s.
    + apply Hrec. tauto.
Qed.

Lemma records_degenerate T es o : records T es → records ((o, o) :: T) es.
Proof.
  intros Hrec a b. rewrite (Hrec a b), !elem_of_cons. split.
  - intros [? ?]. split; [done|]. tauto.
  - intros [Hab Hin]. split; [done|].
    destruct Hin as [ [ [= -> ->] | Hin ] | [ [= -> ->] | Hin ] ]; tauto.
Qed.

(** One call of [addEdge] from a well-formed graph: it returns, keeps the
    invariant, and does what its contract says. *)
Lemma addEdge_step T g o d :
  wf g → records T (EdgeGraph.edges g) →
  ∃ r g', EdgeGraph.addEdge ip o d g = Some (r, g')
    ∧ wf g' ∧ records ((o, d) :: T) (EdgeGraph.edges g')
    ∧ (o = d → r = None ∧ g' = g)
    ∧ (o ≠ d → ∃ e, r = Some e ∧ half_edge (EdgeGraph.edges g') e o d)
    ∧ ((∃ h, half_edge (EdgeGraph.edges g) h o d) → g' = g)
    ∧ (g' = g ∨
       ((∀ h, ¬ half_edge (EdgeGraph.edges g) h o d)
        ∧ r = Some (length (EdgeGraph.edges g))
        ∧ length (EdgeGraph.edges g') = S (S (length (EdgeGraph.edges g))))).
Proof.
  intros Hwf Hrec. unfold EdgeGraph.addEdge.
  destruct (decide (o = d)) as [->|Hod].
  - assert (EdgeGraph.isValidEdge d d = false) as ->.
    { apply not_true_is_false. rewrite isValidEdge_ne. by intros H. }
    simpl. exists None, g. unfold EdgeGraph.ret.
    split; [done|]. split; [done|]. split; [by apply records_degenerate|].
    split; [done|]. split; [done|]. split; [done|]. by left.
  - assert (EdgeGraph.isValidEdge o d = true) as -> by by apply isValidEdge_ne.
    simpl. unfold EdgeGraph.bind at 1 2. unfold EdgeGraph.lookupVertex.
    pose proof (insert_fresh T g o d Hwf Hrec Hod) as Hfresh.
    destruct (EdgeGraph.vertexMap g !! o) as [p|] eqn:Ev; simpl in *.
    + destruct (wf_vertex _ _ Hwf o p Ev) as (r & l & -> & Hring & Hmem).
      unfold EdgeGraph.reading.
      destruct (find_ring _ r l d Hring) as (res & Hfind & Hpost).
      { intros h Hh. apply (wfP_dest_is_Some _ _ _ Hwf).
        apply Hmem in Hh as [Hoh _]. by eapply orig_lt. }
      rewrite Hfind. simpl. destruct res as [h|].
      * destruct Hpost as [Hin Hd]. apply Hmem in Hin as [Ho _].
        exists (Some h), g. unfold EdgeGraph.ret.
        split; [done|]. split; [done|].
        split; [by apply (records_again T g h)|]. split; [done|].
        split; [by exists h|]. split; [done|]. by left.
      * destruct Hfresh as (g' & Hins & Hwf' & Hrec' & Hhe & Hlen).
        { intros h [Ho Hd]. apply (Hpost h); [|done]. apply Hmem.
          split; [done|]. apply not_elem_of_empty. }
        unfold EdgeGraph.bind. rewrite Hins. unfold EdgeGraph.ret.
        exists (Some (length (EdgeGraph.edges g))), g'.
        assert (∀ h, ¬ half_edge (EdgeGraph.edges g) h o d) as Hno.
        { intros h [Ho Hd]. apply (Hpost h); [|done]. apply Hmem.
          split; [done|]. apply not_elem_of_empty. }
        split; [done|]. split; [done|]. split; [done|]. split; [done|].
        split; [by eexists|]. split.
        -- intros [h Hh]. exfalso. by apply (Hno h).
        -- right. by split.
    + assert (∀ h, ¬ half_edge (EdgeGraph.edges g) h o d) as Hno.
      { intros h [Ho _]. destruct (wf_known _ _ Hwf h o Ho) as [? Hc].
        - apply not_elem_of_empty.
        - congruence. }
      destruct (Hfresh Hno) as (g' & Hins & Hwf' & Hrec' & Hhe & Hlen).
      unfold EdgeGraph.ret at 1. simpl.
      unfold EdgeGraph.bind. rewrite Hins. unfold EdgeGraph.ret.
      exists (Some (length (EdgeGraph.edges g))), g'.
      split; [done|]. split; [done|]. split; [done|]. split; [done|].
      split; [by eexists|]. split.
      * intros [h Hh]. exfalso. by apply (Hno h).
      * right. by split.
Qed.

Lemma wf_empty : wf EdgeGraph.empty.
Proof.
  constructor; simpl.
  - intros h Hh. lia.
  - intros h Hh. by apply not_elem_of_empty in Hh.
  - intros v p Hv. by rewrite lookup_empty in Hv.
  - intros h v Ho. done.
  - intros h1 h2 o d Ho. done.
Qed.

Lemma records_empty : records [] [].
Proof.
  intros a b. split.
  - intros [h [Ho _] ]. done.
  - intros [_ [Hin|Hin] ]; by apply elem_of_nil in Hin.
Qed.

(** Every state a caller can see is well formed and holds exactly the
    edges that were asked for. *)
Lemma reachable_inv T g :
  reachable ip T g → wf g ∧ records T (EdgeGraph.edges g).
Proof.
  induction 1 as [|T g o d r g' Hreach [Hwf Hrec] Hadd].
  - split; [apply wf_empty|apply records_empty].
  - destruct (addEdge_step T g o d Hwf Hrec) as (r0 & g0 & Hadd0 & Hwf0 & Hrec0 & _).
    rewrite Hadd in Hadd0. by injection Hadd0 as -> ->.
Qed.

Lemma reachable_step T g o d r g' :
  reachable ip T g → EdgeGraph.addEdge ip o d g = Some (r, g') →
  reachable ip ((o, d) :: T) g'.
Proof. intros. by eapply reachable_addEdge. Qed.

Lemma reachable_run_from calls :
  ∀ T g g', reachable ip T g →
    foldl (λ g od, g' ← g; snd <$> EdgeGraph.addEdge ip od.1 od.2 g')
          (Some g) calls = Some g' →
    reachable ip (rev calls ++ T) g'.
Proof.
  induction calls as [| [o d] calls IH]; intros T g g' Hreach Hrun; simpl in *.
  - by injection Hrun as <-.
  - destruct (EdgeGraph.addEdge ip o d g) as [ [r g1]|] eqn:Ea; simpl in Hrun.
    + rewrite <- app_assoc. simpl. apply (IH _ g1); [|done].
      by eapply reachable_addEdge.
    + exfalso. clear -Hrun. induction calls as [|c calls IH]; [done|].
      simpl in Hrun. by apply IH.
Qed.

(** A run of calls from the empty graph ends in a reachable state. *)
Lemma reachable_run calls g :
  run ip calls = Some g → reachable ip (rev calls) g.
Proof.
  intros H. rewrite <- (app_nil_r (rev calls)).
  eapply reachable_run_from; [apply reachable_empty|exact H].
Qed.

(** ** Looking edges up *)

Lemma findEdge_half_edge g e a b :
  wf g → half_edge (EdgeGraph.edges g) e a b →
  EdgeGraph.findEdge a b g = Some (Some e, g).
Proof.
  intros Hwf [Ho Hd].
  destruct (wf_known _ _ Hwf e a Ho) as [p Ev]; [apply not_elem_of_empty|].
  destruct (wf_vertex _ _ Hwf a p Ev) as (r & l & -> & Hring & Hmem).
  unfold EdgeGraph.findEdge, EdgeGraph.bind, EdgeGraph.lookupVertex.
  rewrite Ev. simpl. unfold EdgeGraph.reading.
  destruct (find_ring _ r l b Hring) as (res & Hfind & Hpost).
  { intros h Hh. apply (wfP_dest_is_Some _ _ _ Hwf).
    apply Hmem in Hh as [Hoh _]. by eapply orig_lt. }
  rewrite Hfind. simpl. destruct res as [h|].
  - destruct Hpost as [Hin Hdh]. apply Hmem in Hin as [Hoh _].
    by rewrite (wf_simple _ _ Hwf h e a b).
  - exfalso. apply (Hpost e); [|done]. apply Hmem. split; [done|].
    apply not_elem_of_empty.
Qed.

(** [addEdge] on an edge the graph holds, in either direction. *)
Lemma addEdge_present T g o d h :
  wf g → records T (EdgeGraph.edges g) → o ≠ d →
  half_edge (EdgeGraph.edges g) h o d ∨ half_edge (EdgeGraph.edges g) h d o →
  ∃ e, EdgeGraph.addEdge ip o d g = Some (Some e, g)
       ∧ half_edge (EdgeGraph.edges g) e o d
       ∧ ∀ e', half_edge (EdgeGraph.edges g) e' o d → e' = e.
Proof.
  intros Hwf Hrec Hod Hh.
  assert (∃ h0, half_edge (EdgeGraph.edges g) h0 o d) as Hex.
  { destruct Hh as [Hh|Hh]; [by exists h|].
    destruct (wfP_half_edge_sym _ _ _ _ _ Hwf Hh) as (s & _ & Hs). by exists s. }
  destruct (addEdge_step T g o d Hwf Hrec)
    as (r & g' & Hadd & _ & _ & _ & Hres & Hsame & _).
  specialize (Hsame Hex) as ->. destruct (Hres Hod) as (e & -> & He).
  exists e. split; [done|]. split; [done|].
  intros e' [Ho' Hd']. destruct He as [Ho Hd].
  by apply (wf_simple _ _ Hwf e' e o d).
Qed.

(** X13. Calling [addEdge] a second time with the same arguments, from a
    reachable state, returns what the first call returned and changes
    nothing. *)
Lemma addEdge_twice T g o d r g' :
  reachable ip T g → EdgeGraph.addEdge ip o d g = Some (r, g') →
  EdgeGraph.addEdge ip o d g' = Some (r, g').
Proof.
  intros Hreach Hadd.
  destruct (reachable_inv _ _ Hreach) as [Hwf Hrec].
  destruct (addEdge_step T g o d Hwf Hrec)
    as (r0 & g0 & Hadd0 & Hwf' & Hrec' & Hdeg & Hres & _).
  rewrite Hadd in Hadd0. injection Hadd0 as <- <-.
  destruct (decide (o = d)) as [->|Hod].
  - destruct (Hdeg eq_refl) as [-> ->]. done.
  - destruct (Hres Hod) as (e & -> & He).
    destruct (addEdge_present _ g' o d e Hwf' Hrec' Hod) as (e2 & Hadd2 & _ & Huniq);
      [by left|].
    by rewrite (Huniq e He).
Qed.

(** ** Rings and degrees *)

Lemma elem_of_incident v (T : list (Coordinate * Coordinate)) b :
  b ∈ omap (incidentTo v) T ↔ v ≠ b ∧ ((v, b) ∈ T ∨ (b, v) ∈ T).
Proof.
  rewrite list_elem_of_omap. split.
  - intros ([a c] & Hin & Hinc). unfold incidentTo in Hinc. simpl in Hinc.
    destruct (decide (a = c)) as [|Hac]; [done|].
    destruct (decide (a = v)) as [->|Hav].
    + injection Hinc as ->. split; [done|]. by left.
    + destruct (decide (c = v)) as [->|]; [|done].
      injection Hinc as ->. split; [done|]. by right.
  - intros [Hvb [Hin|Hin] ].
    + exists (v, b). split; [done|]. unfold incidentTo. simpl.
      destruct (decide (v = b)); [done|]. by destruct (decide (v = v)).
    + exists (b, v). split; [done|]. unfold incidentTo. simpl.
      destruct (decide (b = v)); [congruence|]. by destruct (decide (v = v)).
Qed.

(** The ring of a vertex has one member per distinct edge at the vertex. *)
Lemma ring_degree T g v l :
  wf g → records T (EdgeGraph.edges g) →
  NoDup l →
  (∀ h, h ∈ l ↔ HalfEdge.orig (EdgeGraph.edges g) h = Some v ∧ h ∉ (∅ : gset nat)) →
  length l = degree v T.
Proof.
  intros Hwf Hrec Hnd Hmem. unfold degree.
  set (f := λ h, default v (HalfEdge.dest (EdgeGraph.edges g) h)).
  assert (∀ h, h ∈ l → half_edge (EdgeGraph.edges g) h v (f h)) as Hf.
  { intros h Hh. apply Hmem in Hh as [Ho _]. split; [done|]. unfold f.
    destruct (wfP_dest_is_Some _ _ h Hwf) as [b ->]; [by eapply orig_lt|done]. }
  rewrite <- (length_fmap f l). apply Permutation_length, NoDup_Permutation.
  - apply NoDup_fmap_2_strong; [|done]. intros h1 h2 H1 H2 Heq.
    destruct (Hf h1 H1) as [Ho1 Hd1]. destruct (Hf h2 H2) as [Ho2 Hd2].
    rewrite Heq in Hd1. by apply (wf_simple _ _ Hwf h1 h2 v (f h2)).
  - apply NoDup_remove_dups.
  - intros b. rewrite elem_of_remove_dups, elem_of_incident, <- (Hrec v b).
    rewrite list_elem_of_fmap. split.
    + intros (h & -> & Hh). exists h. by apply Hf.
    + intros (h & Ho & Hd). exists h. split.
      * unfold f. by rewrite Hd.
      * apply Hmem. split; [done|]. apply not_elem_of_empty.
Qed.

(** Going round a ring: the walk is back at its start after as many steps
    as the ring has members, and not before. *)
Lemma ring_steps es r l :
  is_ring es r l →
  nextN es (length l) r = Some r
  ∧ ∀ k, 0 < k < length l → ∃ h, nextN es k r = Some h ∧ h ≠ r.
Proof.
  intros Hring. destruct (is_ring_cons _ _ _ Hring) as (t & -> & Hr).
  destruct Hring as (_ & Hnd & Hl). split.
  - rewrite (nextN_linked es r t r (length (r :: t)) Hl) by done.
    change (r :: t ++ [r]) with ((r :: t) ++ [r]).
    by rewrite lookup_app_r, Nat.sub_diag.
  - intros k Hk. rewrite (nextN_linked es r t r k Hl) by (simpl in Hk; lia).
    change (r :: t ++ [r]) with ((r :: t) ++ [r]).
    rewrite lookup_app_l by lia.
    destruct (lookup_lt_is_Some_2 (r :: t) k) as [h Hh]; [lia|].
    exists h. split; [done|]. intros ->.
    assert (k = 0); [|lia].
    by apply (NoDup_lookup (r :: t) k 0 r Hnd).
Qed.

Lemma push_entries_app its out :
  EdgeGraph.push_entries its out = out ++ its.*2.
Proof.
  revert out. induction its as [|it its IH]; intros out; simpl.
  - by rewrite app_nil_r.
  - rewrite IH, <- app_assoc. done.
Qed.

(** * The properties of the specification *)

(** C1. [addEdge] is idempotent: in every graph state a sequence of
    [addEdge] calls leads to, and for distinct [o] and [d], when the arena
    holds a half-edge between [o] and [d] in either direction, [addEdge o d]
    returns the one stored half-edge from [o] to [d] and leaves the whole
    graph, arena and vertex map, as it was. *)
Theorem addEdge_idempotent T g o d :
  reachable ip T g → o ≠ d →
  (∃ h, half_edge (EdgeGraph.edges g) h o d
        ∨ half_edge (EdgeGraph.edges g) h d o) →
  ∃ e, EdgeGraph.addEdge ip o d g = Some (Some e, g)
       ∧ half_edge (EdgeGraph.edges g) e o d
       ∧ ∀ e', half_edge (EdgeGraph.edges g) e' o d → e' = e.
Proof.
  intros Hreach Hod [h Hh].
  destruct (reachable_inv _ _ Hreach) as [Hwf Hrec].
  by apply (addEdge_present T g o d h).
Qed.

(** C2. Symmetry of insertion: for distinct [o] and [d], [addEdge o d]
    returns a half-edge [e]; afterwards [findEdge o d] returns [e],
    [findEdge d o] returns a half-edge [e'], and [e] and [e'] are each
    other's [sym]. *)
Theorem addEdge_symmetry T g o d :
  reachable ip T g → o ≠ d →
  ∃ e e' g',
    EdgeGraph.addEdge ip o d g = Some (Some e, g')
    ∧ EdgeGraph.findEdge o d g' = Some (Some e, g')
    ∧ EdgeGraph.findEdge d o g' = Some (Some e', g')
    ∧ HalfEdge.sym (EdgeGraph.edges g') e = Some (Some e')
    ∧ HalfEdge.sym (EdgeGraph.edges g') e' = Some (Some e).
Proof.
  intros Hreach Hod.
  destruct (reachable_inv _ _ Hreach) as [Hwf Hrec].
  destruct (addEdge_step T g o d Hwf Hrec)
    as (r & g' & Hadd & Hwf' & _ & _ & Hres & _).
  destruct (Hres Hod) as (e & -> & He).
  destruct (wfP_half_edge_sym _ _ _ _ _ Hwf' He) as (e' & Hs & He').
  destruct (wfP_half_edge_sym _ _ _ _ _ Hwf' He') as (e2 & Hs' & He2).
  assert (e2 = e) as ->.
  { destruct He as [Ho Hd], He2 as [Ho2 Hd2].
    by apply (wf_simple _ _ Hwf' e2 e o d). }
  exists e, e', g'. split; [done|].
  split; [by apply findEdge_half_edge|].
  split; [by apply findEdge_half_edge|]. done.
Qed.

(** C3. Degenerate edges are rejected without any change: in every graph
    state, [addEdge p p] returns [nullptr] and the graph is the one the
    call started from. *)
Theorem addEdge_degenerate g p :
  EdgeGraph.addEdge ip p p g = Some (nullptr, g).
Proof.
  unfold EdgeGraph.addEdge.
  assert (EdgeGraph.isValidEdge p p = false) as ->; [|done].
  apply not_true_is_false. rewrite isValidEdge_ne. by intros H.
Qed.

(** C4. Ring closure: in every reachable state, every vertex [v] of the
    vertex map has a representative [r], and following [next] from [r]
    comes back to [r] after exactly [degree v T] steps: the walk is at [r]
    after that many steps, and at another half-edge after any smaller
    positive number of steps. *)
Theorem ring_closure T g v :
  reachable ip T g → is_Some (EdgeGraph.vertexMap g !! v) →
  ∃ r, EdgeGraph.vertexMap g !! v = Some (Some r)
       ∧ nextN (EdgeGraph.edges g) (degree v T) r = Some r
       ∧ ∀ k, 0 < k < degree v T →
              ∃ h, nextN (EdgeGraph.edges g) k r = Some h ∧ h ≠ r.
Proof.
  intros Hreach [p Hv].
  destruct (reachable_inv _ _ Hreach) as [Hwf Hrec].
  destruct (wf_vertex _ _ Hwf v p Hv) as (r & l & -> & Hring & Hmem).
  exists r. split; [done|].
  rewrite <- (ring_degree T g v l Hwf Hrec); [|by destruct Hring as (_ & ? & _)|done].
  by apply ring_steps.
Qed.

(** C5. The vertex map: in every reachable state it lists each coordinate
    at most once, every key is an end of a non-degenerate edge some
    [addEdge] call asked for, and the pointer stored under a key is a
    half-edge whose origin is that key. *)
Theorem vertexMap_invariant T g :
  reachable ip T g →
  NoDup (map_to_list (EdgeGraph.vertexMap g)).*1
  ∧ ∀ v p, EdgeGraph.vertexMap g !! v = Some p →
      (∃ a b, (a, b) ∈ T ∧ a ≠ b ∧ (v = a ∨ v = b))
      ∧ ∃ r, p = Some r ∧ HalfEdge.orig (EdgeGraph.edges g) r = Some v.
Proof.
  intros Hreach. split; [apply NoDup_fst_map_to_list|].
  intros v p Hv. destruct (reachable_inv _ _ Hreach) as [Hwf Hrec].
  destruct (wf_vertex _ _ Hwf v p Hv) as (r & l & -> & Hring & Hmem).
  destruct (proj1 (Hmem r) (is_ring_head _ _ _ Hring)) as [Ho _].
  destruct (wfP_dest_is_Some _ _ r Hwf) as [b Hb]; [by eapply orig_lt|].
  split; [|by exists r].
  destruct (proj1 (Hrec v b)) as [Hvb [Hin|Hin] ]; [by exists r| |].
  - exists v, b. split; [done|]. split; [done|]. by left.
  - exists b, v. split; [done|]. split; [done|]. by right.
Qed.

(** C6. What [addEdge] returns: for distinct [o] and [d], [addEdge o d]
    returns a half-edge whose origin is [o] and whose destination is [d];
    when the edge was already held the graph is unchanged, and when it was
    not the returned half-edge is the first of the two new ones. *)
Theorem addEdge_returns_edge T g o d :
  reachable ip T g → o ≠ d →
  ∃ e g', EdgeGraph.addEdge ip o d g = Some (Some e, g')
    ∧ HalfEdge.orig (EdgeGraph.edges g') e = Some o
    ∧ HalfEdge.dest (EdgeGraph.edges g') e = Some d
    ∧ ((∃ h, half_edge (EdgeGraph.edges g) h o d) → g' = g)
    ∧ ((∀ h, ¬ half_edge (EdgeGraph.edges g) h o d) →
       e = length (EdgeGraph.edges g)
       ∧ length (EdgeGraph.edges g') = S (S (length (EdgeGraph.edges g)))).
Proof.
  intros Hreach Hod.
  destruct (reachable_inv _ _ Hreach) as [Hwf Hrec].
  destruct (addEdge_step T g o d Hwf Hrec)
    as (r & g' & Hadd & _ & _ & _ & Hres & Hsame & Hcases).
  destruct (Hres Hod) as (e & -> & [Ho Hd]).
  exists e, g'. split; [done|]. split; [done|]. split; [done|].
  split; [done|]. intros Hno.
  destruct Hcases as [->|(_ & [= ->] & Hlen)]; [|done].
  exfalso. by apply (Hno e).
Qed.

(** C7. [findEdge]: in every graph state, [findEdge o d] returns [nullptr]
    when [o] is not a key of the vertex map, and otherwise exactly what
    [find d] returns on the half-edge the map stores for [o] (and
    [nullptr], without calling [find], should the stored pointer be
    null).  The graph is not changed. *)
Theorem findEdge_semantics g o d :
  EdgeGraph.findEdge o d g =
  match EdgeGraph.vertexMap g !! o with
  | None => Some (nullptr, g)
  | Some (Some e) => (λ r, (r, g)) <$> HalfEdge.find (EdgeGraph.edges g) e d
  | Some None => Some (nullptr, g)
  end.
Proof.
  unfold EdgeGraph.findEdge, EdgeGraph.bind, EdgeGraph.lookupVertex,
    EdgeGraph.reading, EdgeGraph.ret.
  destruct (EdgeGraph.vertexMap g !! o) as [ [e|]|]; simpl; [|done|done].
  destruct (HalfEdge.find (EdgeGraph.edges g) e d); reflexivity.
Qed.

(** C8. [addEdge] is total on reachable states: it always returns.  When
    [o] and [d] compare unequal the pointer it returns is not null and
    designates a half-edge of the arena, with origin [o] and destination
    [d]; the pointer is null exactly when [o] and [d] compare equal, and
    then the graph is left as it was. *)
Theorem addEdge_total T g o d :
  reachable ip T g →
  ∃ r g', EdgeGraph.addEdge ip o d g = Some (r, g')
    ∧ (r = nullptr ↔ compareTo d o = 0%Z)
    ∧ (compareTo d o = 0%Z → g' = g)
    ∧ (compareTo d o ≠ 0%Z →
       ∃ e, r = Some e
            ∧ e < length (EdgeGraph.edges g')
            ∧ HalfEdge.orig (EdgeGraph.edges g') e = Some o
            ∧ HalfEdge.dest (EdgeGraph.edges g') e = Some d).
Proof.
  intros Hreach.
  destruct (reachable_inv _ _ Hreach) as [Hwf Hrec].
  destruct (addEdge_step T g o d Hwf Hrec)
    as (r & g' & Hadd & _ & _ & Hdeg & Hres & _).
  exists r, g'. split; [done|]. rewrite compareTo_eq.
  split; [|split].
  - split.
    + intros ->. destruct (decide (d = o)) as [|Hne]; [done|].
      destruct Hres as (e & He & _); [congruence|done].
    + intros ->. by destruct (Hdeg eq_refl).
  - intros ->. by destruct (Hdeg eq_refl).
  - intros Hne. destruct Hres as (e & -> & [Ho Hd]); [congruence|].
    exists e. split; [done|]. split; [by eapply orig_lt|]. by split.
Qed.

(** C9. [getVertexEdges] enumerates the vertex map: called on an empty
    vector it produces the stored pointers of a list of entries that holds
    each key of the map once, each with the pointer stored for it, and
    nothing else. *)
Theorem getVertexEdges_enumerates g :
  ∃ its : list (Coordinate * ptr),
    EdgeGraph.getVertexEdges [] g = Some (its.*2, g)
    ∧ NoDup its.*1
    ∧ (∀ v p, (v, p) ∈ its ↔ EdgeGraph.vertexMap g !! v = Some p)
    ∧ length its.*2 = size (EdgeGraph.vertexMap g).
Proof.
  exists (map_to_list (EdgeGraph.vertexMap g)).
  unfold EdgeGraph.getVertexEdges. rewrite push_entries_app. simpl.
  split; [done|]. split; [apply NoDup_fst_map_to_list|]. split.
  - intros v p. apply elem_of_map_to_list.
  - by rewrite length_fmap, length_map_to_list.
Qed.

(** C10. [getVertexEdges] appends: whatever the vector holds before the
    call, afterwards it holds the same elements followed by the pointers
    stored in the vertex map, and the graph is unchanged. *)
Theorem getVertexEdges_appends g (edgesOut : list ptr) :
  EdgeGraph.getVertexEdges edgesOut g
  = Some (edgesOut ++ (map_to_list (EdgeGraph.vertexMap g)).*2, g).
Proof.
  unfold EdgeGraph.getVertexEdges. by rewrite push_entries_app.
Qed.

End Verification.

(** * The properties at work on sample graphs *)

Lemma triangle_reachable : reachable afterFirst (rev triangle_calls) triangle.
Proof. apply reachable_run. vm_compute. reflexivity. Qed.

Lemma star_reachable : reachable afterLast (rev star_calls) star.
Proof. apply reachable_run. vm_compute. reflexivity. Qed.

(** The triangle of the specification's first scenario: three vertices,
    six half-edges, every vertex of degree two. *)
Example triangle_scenario :
  size (EdgeGraph.vertexMap triangle) = 3
  ∧ length (EdgeGraph.edges triangle) = 6
  ∧ degree ptA (rev triangle_calls) = 2
  ∧ (fst <$> EdgeGraph.findEdge ptA ptB triangle) = Some (Some 0)
  ∧ (fst <$> EdgeGraph.findEdge ptB ptA triangle) = Some (Some 1)
  ∧ EdgeGraph.addEdge afterFirst ptB ptA triangle = Some (Some 1, triangle).
Proof. vm_compute. repeat split; reflexivity. Qed.

(** The star of the third scenario: the ring of [ptA] has three members
    with three different destinations. *)
Example star_scenario :
  HalfEdge.ring (EdgeGraph.edges star) 0 = Some [0; 2; 4]
  ∧ mapM (HalfEdge.dest (EdgeGraph.edges star)) [0; 2; 4]
    = Some [ptB; ptC; ptD]
  ∧ nextN (EdgeGraph.edges star) 3 0 = Some 0.
Proof. vm_compute. repeat split; reflexivity. Qed.

(** The second scenario: a degenerate edge leaves the vertex map empty. *)
Example degenerate_scenario :
  EdgeGraph.addEdge afterFirst ptA ptA EdgeGraph.empty
  = Some (None, EdgeGraph.empty).
Proof. reflexivity. Qed.

(** A fresh edge on the triangle: the returned pointer is the seventh
    half-edge of an arena that now has eight. *)
Example fresh_edge_scenario :
  EdgeGraph.addEdge afterFirst ptA ptD triangle = Some (Some 6, kite)
  ∧ length (EdgeGraph.edges kite) = 8
  ∧ HalfEdge.orig (EdgeGraph.edges kite) 6 = Some ptA
  ∧ HalfEdge.dest (EdgeGraph.edges kite) 6 = Some ptD.
Proof. vm_compute. repeat split; reflexivity. Qed.

Lemma addEdge_idempotent_witness :
  ptB ≠ ptA
  ∧ ∃ e, EdgeGraph.addEdge afterFirst ptB ptA triangle = Some (Some e, triangle)
         ∧ half_edge (EdgeGraph.edges triangle) e ptB ptA
         ∧ ∀ e', half_edge (EdgeGraph.edges triangle) e' ptB ptA → e' = e.
Proof.
  split; [discriminate|].
  apply (addEdge_idempotent afterFirst (rev triangle_calls) triangle ptB ptA).
  - apply reachable_run. vm_compute. reflexivity.
  - discriminate.
  - exists 0. right. split; vm_compute; reflexivity.
Defined.

Lemma addEdge_symmetry_witness :
  ∃ e e' g',
    EdgeGraph.addEdge afterFirst ptA ptD triangle = Some (Some e, g')
    ∧ EdgeGraph.findEdge ptA ptD g' = Some (Some e, g')
    ∧ EdgeGraph.findEdge ptD ptA g' = Some (Some e', g')
    ∧ HalfEdge.sym (EdgeGraph.edges g') e = Some (Some e')
    ∧ HalfEdge.sym (EdgeGraph.edges g') e' = Some (Some e).
Proof.
  apply (addEdge_symmetry afterFirst (rev triangle_calls) triangle ptA ptD).
  - apply reachable_run. vm_compute. reflexivity.
  - discriminate.
Defined.

Lemma ring_closure_witness :
  ∃ r, EdgeGraph.vertexMap star !! ptA = Some (Some r)
       ∧ nextN (EdgeGraph.edges star) (degree ptA (rev star_calls)) r = Some r
       ∧ ∀ k, 0 < k < degree ptA (rev star_calls) →
              ∃ h, nextN (EdgeGraph.edges star) k r = Some h ∧ h ≠ r.
Proof.
  apply (ring_closure afterLast (rev star_calls) star ptA).
  - apply reachable_run. vm_compute. reflexivity.
  - exists (Some 0). vm_compute. reflexivity.
Defined.

Lemma vertexMap_invariant_witness :
  NoDup (map_to_list (EdgeGraph.vertexMap triangle)).*1
  ∧ ∀ v p, EdgeGraph.vertexMap triangle !! v = Some p →
      (∃ a b, (a, b) ∈ rev triangle_calls ∧ a ≠ b ∧ (v = a ∨ v = b))
      ∧ ∃ r, p = Some r ∧ HalfEdge.orig (EdgeGraph.edges triangle) r = Some v.
Proof.
  apply (vertexMap_invariant afterFirst (rev triangle_calls) triangle).
  apply reachable_run. vm_compute. reflexivity.
Defined.

Lemma addEdge_returns_edge_witness :
  ∃ e g', EdgeGraph.addEdge afterLast ptB ptC star = Some (Some e, g')
    ∧ HalfEdge.orig (EdgeGraph.edges g') e = Some ptB
    ∧ HalfEdge.dest (EdgeGraph.edges g') e = Some ptC
    ∧ ((∃ h, half_edge (EdgeGraph.edges star) h ptB ptC) → g' = star)
    ∧ ((∀ h, ¬ half_edge (EdgeGraph.edges star) h ptB ptC) →
       e = length (EdgeGraph.edges star)
       ∧ length (EdgeGraph.edges g') = S (S (length (EdgeGraph.edges star)))).
Proof.
  apply (addEdge_returns_edge afterLast (rev star_calls) star ptB ptC).
  - apply reachable_run. vm_compute. reflexivity.
  - discriminate.
Defined.

Lemma addEdge_total_witness :
  (∃ r g', EdgeGraph.addEdge afterFirst ptA ptD triangle = Some (r, g')
     ∧ (r = nullptr ↔ compareTo ptD ptA = 0%Z)
     ∧ (compareTo ptD ptA = 0%Z → g' = triangle)
     ∧ (compareTo ptD ptA ≠ 0%Z →
        ∃ e, r = Some e
             ∧ e < length (EdgeGraph.edges g')
             ∧ HalfEdge.orig (EdgeGraph.edges g') e = Some ptA
             ∧ HalfEdge.dest (EdgeGraph.edges g') e = Some ptD))
  ∧ (∃ r g', EdgeGraph.addEdge afterFirst ptC ptC triangle = Some (r, g')
       ∧ (r = nullptr ↔ compareTo ptC ptC = 0%Z)
       ∧ (compareTo ptC ptC = 0%Z → g' = triangle)
       ∧ (compareTo ptC ptC ≠ 0%Z →
          ∃ e, r = Some e
               ∧ e < length (EdgeGraph.edges g')
               ∧ HalfEdge.orig (EdgeGraph.edges g') e = Some ptC
               ∧ HalfEdge.dest (EdgeGraph.edges g') e = Some ptC)).
Proof.
  split.
  - apply (addEdge_total afterFirst (rev triangle_calls) triangle ptA ptD).
    apply reachable_run. vm_compute. reflexivity.
  - apply (addEdge_total afterFirst (rev triangle_calls) triangle ptC ptC).
    apply reachable_run. vm_compute. reflexivity.
Defined.

(** * Further properties of the graph builder *)

Section Beyond.

Variable ip : Coordinate → list Coordinate → Coordinate → nat.

(** ** What [addEdge] leaves alone, in any graph state *)

Lemma insertAfter_shape es p e es' :
  HalfEdge.insertAfter es p e = Some es' → same_shape es es'.
Proof.
  unfold HalfEdge.insertAfter. intros H.
  destruct (HalfEdge.next es p) as [save|]; [|done]. simpl in H.
  destruct (HalfEdge.setNext es p (Some e)) as [es1|] eqn:E1; [|done].
  simpl in H. apply setNext_spec in E1 as [H1 _].
  apply setNext_spec in H as [H2 _]. by eapply same_shape_trans.
Qed.

Lemma HalfEdge_insert_shape es r e es' :
  HalfEdge.insert ip es r e = Some es' → same_shape es es'.
Proof.
  unfold HalfEdge.insert. intros H.
  destruct (HalfEdge.orig es r) as [o|]; [|done]. simpl in H.
  destruct (HalfEdge.orig es e) as [o'|]; [|done]. simpl in H.
  destruct (negb (equals2D o o')); [done|].
  destruct (HalfEdge.ring es r) as [l|]; [|done]. simpl in H.
  destruct (mapM (HalfEdge.dest es) l) as [ds|]; [|done]. simpl in H.
  destruct (HalfEdge.dest es e) as [d|]; [|done]. simpl in H.
  destruct (l !! _) as [ePrev|]; [|done]. simpl in H.
  by eapply insertAfter_shape.
Qed.

Lemma attach_effect v rep e g u g' :
  attach ip v rep e g = Some (u, g') →
  same_shape (EdgeGraph.edges g) (EdgeGraph.edges g')
  ∧ EdgeGraph.vertexMap g' =
      match rep with
      | Some _ => EdgeGraph.vertexMap g
      | None => <[v := Some e]> (EdgeGraph.vertexMap g)
      end.
Proof.
  unfold attach. destruct rep as [r|].
  - unfold EdgeGraph.writing.
    destruct (HalfEdge.insert ip (EdgeGraph.edges g) r e) as [es'|] eqn:E;
      [|done].
    simpl. intros [= _ <-]. simpl. split; [|done].
    by eapply HalfEdge_insert_shape.
  - unfold EdgeGraph.setVertex. intros [= _ <-]. simpl.
    split; [apply same_shape_refl|done].
Qed.

(** The private [insert], from any state in which it returns: the arena
    is the old one with the new pair, up to [next] pointers, and the
    vertex map gains at most the two ends. *)
Lemma insert_effect o d eAdj g e g' :
  EdgeGraph.insert ip o d eAdj g = Some (e, g') →
  e = length (EdgeGraph.edges g)
  ∧ same_shape (with_new_edge (EdgeGraph.edges g) o d) (EdgeGraph.edges g')
  ∧ ∃ vm1,
      vm1 = match eAdj with
            | Some _ => EdgeGraph.vertexMap g
            | None => <[o := Some e]> (EdgeGraph.vertexMap g)
            end
      ∧ EdgeGraph.vertexMap g' =
          match default None (vm1 !! d) with
          | Some _ => vm1
          | None => <[d := Some (S e)]> vm1
          end.
Proof.
  intros H. pose proof (create_eq o d g) as Hc.
  set (n := length (EdgeGraph.edges g)) in *.
  set (g1 := EdgeGraph.mk (with_new_edge _ _ _) _) in *.
  destruct (attach ip o eAdj n g1) as [ [ [] g2]|] eqn:Ea.
  2:{ exfalso. revert H. unfold EdgeGraph.insert, EdgeGraph.bind.
      rewrite Hc. unfold attach in Ea. destruct eAdj; by rewrite Ea. }
  destruct (attach_effect _ _ _ _ _ _ Ea) as [Hsh2 Hvm2]. simpl in Hsh2, Hvm2.
  assert (HalfEdge.sym (EdgeGraph.edges g2) n = Some (Some (S n))) as Hs2.
  { destruct (Hsh2 n) as [_ ->]. apply fresh_sym_e0. }
  rewrite (insert_unfold ip _ _ _ _ _ _ _ _ Hc Ea Hs2) in H.
  destruct (attach ip d _ (S n) g2) as [ [ [] g3]|] eqn:Ea3; [|done].
  injection H as <- <-.
  destruct (attach_effect _ _ _ _ _ _ Ea3) as [Hsh3 Hvm3].
  split; [done|]. split; [by eapply same_shape_trans|].
  exists (EdgeGraph.vertexMap g2). split; [done|]. done.
Qed.

Lemma addEdge_effect o d g r g' :
  EdgeGraph.addEdge ip o d g = Some (r, g') →
  g' = g
  ∨ ∃ e, EdgeGraph.insert ip o d
           (default None (EdgeGraph.vertexMap g !! o)) g = Some (e, g').
Proof.
  unfold EdgeGraph.addEdge.
  destruct (negb (EdgeGraph.isValidEdge o d)).
  { intros [= _ <-]. by left. }
  unfold EdgeGraph.bind at 1 2. unfold EdgeGraph.lookupVertex.
  destruct (default None (EdgeGraph.vertexMap g !! o)) as [eAdj|].
  - unfold EdgeGraph.reading.
    destruct (HalfEdge.find (EdgeGraph.edges g) eAdj d) as [ [eSame|]|];
      simpl; [|  |done].
    + intros [= _ <-]. by left.
    + unfold EdgeGraph.bind.
      destruct (EdgeGraph.insert ip o d (Some eAdj) g) as [ [e g0]|]; [|done].
      intros [= _ <-]. right. by exists e.
  - unfold EdgeGraph.ret at 1. unfold EdgeGraph.bind.
    destruct (EdgeGraph.insert ip o d None g) as [ [e g0]|]; [|done].
    intros [= _ <-]. right. by exists e.
Qed.

(** X1. [addEdge] never frees or rewrites a half-edge it has handed out:
    from any graph state in which it returns, the arena keeps its size or
    grows by two, and every half-edge that was there keeps its origin and
    its [sym]. *)
Theorem addEdge_keeps_half_edges o d g r g' :
  EdgeGraph.addEdge ip o d g = Some (r, g') →
  (length (EdgeGraph.edges g') = length (EdgeGraph.edges g)
   ∨ length (EdgeGraph.edges g') = S (S (length (EdgeGraph.edges g))))
  ∧ ∀ h, h < length (EdgeGraph.edges g) →
      HalfEdge.orig (EdgeGraph.edges g') h = HalfEdge.orig (EdgeGraph.edges g) h
      ∧ HalfEdge.sym (EdgeGraph.edges g') h = HalfEdge.sym (EdgeGraph.edges g) h.
Proof.
  intros H. apply addEdge_effect in H as [->|[e He] ].
  - split; [by left|done].
  - apply insert_effect in He as (_ & Hsh & _). split.
    + right. rewrite (same_shape_length _ _ Hsh). apply fresh_length.
    + intros h Hh. destruct (Hsh h) as [-> ->].
      by rewrite fresh_orig_old, fresh_sym_old.
Qed.

(** X2. [addEdge] never replaces a representative: from any graph state
    in which it returns, a vertex that had a non-null half-edge in the
    vertex map still has the same one. *)
Theorem addEdge_keeps_representatives o d g r g' :
  EdgeGraph.addEdge ip o d g = Some (r, g') →
  ∀ v e, EdgeGraph.vertexMap g !! v = Some (Some e) →
         EdgeGraph.vertexMap g' !! v = Some (Some e).
Proof.
  intros H v e Hv. apply addEdge_effect in H as [->|[e0 He] ]; [done|].
  apply insert_effect in He as (_ & _ & vm1 & Hvm1 & ->).
  assert (vm1 !! v = Some (Some e)) as Hv1.
  { rewrite Hvm1.
    destruct (default None (EdgeGraph.vertexMap g !! o)) as [eAdj|] eqn:Eo;
      [done|].
    rewrite lookup_insert_ne; [done|]. intros ->. by rewrite Hv in Eo. }
  destruct (default None (vm1 !! d)) as [rd|] eqn:Ed; [done|].
  rewrite lookup_insert_ne; [done|]. intros ->. by rewrite Hv1 in Ed.
Qed.

(** ** The graph and the calls that built it *)

Lemma linked_next es l z h :
  linked es l z → h ∈ l →
  ∃ n, HalfEdge.next es h = Some (Some n) ∧ (n ∈ l ∨ n = z).
Proof.
  induction l as [|a l IH]; simpl; intros Hl Hin.
  - by apply elem_of_nil in Hin.
  - destruct Hl as [Hn Hl]. apply elem_of_cons in Hin as [->|Hin].
    + exists (hd z l). split; [done|]. destruct l as [|b l]; simpl.
      * by right.
      * left. right. by left.
    + destruct (IH Hl Hin) as (n & Hnn & [Hnl| ->]).
      * exists n. split; [done|]. left. by right.
      * exists z. split; [done|]. by right.
Qed.

(** X3. The vertex map knows exactly the ends of the edges asked for: in
    every reachable state a coordinate is a key of the vertex map if and
    only if it is an end of a non-degenerate edge some [addEdge] call
    asked for. *)
Theorem vertexMap_complete T g v :
  reachable ip T g →
  (is_Some (EdgeGraph.vertexMap g !! v)
   ↔ ∃ a b, (a, b) ∈ T ∧ a ≠ b ∧ (v = a ∨ v = b)).
Proof.
  intros Hreach. destruct (reachable_inv ip _ _ Hreach) as [Hwf Hrec]. split.
  - intros [p Hv].
    destruct (wf_vertex _ _ Hwf v p Hv) as (r & l & -> & Hring & Hmem).
    destruct (proj1 (Hmem r) (is_ring_head _ _ _ Hring)) as [Ho _].
    destruct (wfP_dest_is_Some _ _ r Hwf) as [b Hb]; [by eapply orig_lt|].
    destruct (proj1 (Hrec v b)) as [Hvb [Hin|Hin] ]; [by exists r| |].
    + exists v, b. split; [done|]. split; [done|]. by left.
    + exists b, v. split; [done|]. split; [done|]. by right.
  - intros (a & b & Hin & Hab & Hv).
    destruct (proj2 (Hrec a b)) as [h Hh]; [split; [done|by left] |].
    destruct Hv as [->| ->].
    + destruct Hh as [Ho _]. apply (wf_known _ _ Hwf h a Ho), not_elem_of_empty.
    + destruct (wfP_half_edge_sym _ _ _ _ _ Hwf Hh) as (s & _ & [Ho _]).
      apply (wf_known _ _ Hwf s b Ho), not_elem_of_empty.
Qed.

(** X4. No edge is stored twice: in every reachable state the arena holds
    two half-edges per distinct non-degenerate undirected edge asked for,
    however often and in whichever direction it was asked for. *)
Theorem arena_size T g :
  reachable ip T g →
  length (EdgeGraph.edges g) = 2 * distinctEdges T.
Proof.
  induction 1 as [|T g o d r g' Hreach IH Hadd]; [done|].
  destruct (reachable_inv ip _ _ Hreach) as [Hwf Hrec].
  destruct (addEdge_step ip T g o d Hwf Hrec)
    as (r0 & g0 & Hadd0 & _ & _ & Hdeg & Hres & Hsame & Hcases).
  rewrite Hadd in Hadd0. injection Hadd0 as <- <-. simpl.
  destruct (decide (o = d)) as [Hod|Hod].
  { destruct (Hdeg Hod) as [_ ->]. done. }
  destruct (decide ((o, d) ∈ T ∨ (d, o) ∈ T)) as [Hin|Hnin].
  - rewrite Hsame; [done|]. by apply Hrec.
  - destruct Hcases as [->|(Hno & _ & Hlen)].
    + exfalso. destruct (Hres Hod) as (e & _ & He). apply Hnin.
      apply (Hrec o d). by exists e.
    + rewrite Hlen, IH. lia.
Qed.

(** X5. [findEdge] finds exactly what [addEdge] was asked to add: in
    every reachable state [findEdge o d] returns, leaves the graph as it
    is, and its result is non-null if and only if [o] and [d] differ and
    an [addEdge] call asked for the edge between them, in either
    direction; a non-null result is a half-edge from [o] to [d]. *)
Theorem findEdge_inserted T g o d :
  reachable ip T g →
  ∃ r, EdgeGraph.findEdge o d g = Some (r, g)
       ∧ (is_Some r ↔ o ≠ d ∧ ((o, d) ∈ T ∨ (d, o) ∈ T))
       ∧ ∀ e, r = Some e → half_edge (EdgeGraph.edges g) e o d.
Proof.
  intros Hreach. destruct (reachable_inv ip _ _ Hreach) as [Hwf Hrec].
  unfold EdgeGraph.findEdge, EdgeGraph.bind, EdgeGraph.lookupVertex.
  destruct (EdgeGraph.vertexMap g !! o) as [p|] eqn:Ev; simpl.
  - destruct (wf_vertex _ _ Hwf o p Ev) as (r & l & -> & Hring & Hmem).
    unfold EdgeGraph.reading.
    destruct (find_ring _ r l d Hring) as (res & Hfind & Hpost).
    { intros h Hh. apply (wfP_dest_is_Some _ _ _ Hwf).
      apply Hmem in Hh as [Hoh _]. by eapply orig_lt. }
    rewrite Hfind. simpl. exists res. split; [done|]. destruct res as [h|].
    + destruct Hpost as [Hin Hd]. apply Hmem in Hin as [Ho _]. split.
      * split; [|by eexists]. intros _. apply Hrec. by exists h.
      * by intros e [= <-].
    + split; [|done]. split; [by intros [? ?]|]. intros Hin. exfalso.
      apply Hrec in Hin as [h [Ho Hd] ]. apply (Hpost h); [|done].
      apply Hmem. split; [done|]. apply not_elem_of_empty.
  - exists None. unfold EdgeGraph.ret. split; [done|]. split; [|done].
    split; [by intros [? ?]|]. intros Hin. exfalso.
    apply Hrec in Hin as [h [Ho _] ].
    destruct (wf_known _ _ Hwf h o Ho) as [? Hc]; [apply not_elem_of_empty|].
    congruence.
Qed.

(** X6. Adding an edge and then the reversed edge: for distinct [o] and
    [d], after [addEdge o d] has returned [e], [addEdge d o] returns the
    [sym] of [e] and changes nothing. *)
Theorem addEdge_reverse T g o d :
  reachable ip T g → o ≠ d →
  ∃ e e' g',
    EdgeGraph.addEdge ip o d g = Some (Some e, g')
    ∧ EdgeGraph.addEdge ip d o g' = Some (Some e', g')
    ∧ HalfEdge.sym (EdgeGraph.edges g') e = Some (Some e')
    ∧ HalfEdge.sym (EdgeGraph.edges g') e' = Some (Some e).
Proof.
  intros Hreach Hod. destruct (reachable_inv ip _ _ Hreach) as [Hwf Hrec].
  destruct (addEdge_step ip T g o d Hwf Hrec)
    as (r & g' & Hadd & Hwf' & Hrec' & _ & Hres & _).
  destruct (Hres Hod) as (e & -> & He).
  destruct (wfP_half_edge_sym _ _ _ _ _ Hwf' He) as (e' & Hs & He').
  destruct (wfP_half_edge_sym _ _ _ _ _ Hwf' He') as (e3 & Hs' & He3).
  assert (e3 = e) as ->.
  { destruct He as [Ho Hd], He3 as [Ho3 Hd3].
    by apply (wf_simple _ _ Hwf' e3 e o d). }
  destruct (addEdge_present ip _ g' d o e Hwf' Hrec')
    as (e2 & Hadd2 & _ & Huniq); [congruence|by right|].
  pose proof (Huniq e' He') as ->.
  exists e, e2, g'. split; [done|]. split; [done|]. by split.
Qed.

(** X7. Half-edges come in pairs: in every reachable state each half-edge
    of the arena has a [sym], which has it as its [sym]; the two have
    different origins; and its [next] is a half-edge with the same
    origin. *)
Theorem half_edges_paired T g h :
  reachable ip T g → h < length (EdgeGraph.edges g) →
  ∃ s n o d,
    HalfEdge.sym (EdgeGraph.edges g) h = Some (Some s)
    ∧ HalfEdge.sym (EdgeGraph.edges g) s = Some (Some h)
    ∧ HalfEdge.orig (EdgeGraph.edges g) h = Some o
    ∧ HalfEdge.orig (EdgeGraph.edges g) s = Some d
    ∧ o ≠ d
    ∧ HalfEdge.next (EdgeGraph.edges g) h = Some (Some n)
    ∧ HalfEdge.orig (EdgeGraph.edges g) n = Some o.
Proof.
  intros Hreach Hlt. destruct (reachable_inv ip _ _ Hreach) as [Hwf Hrec].
  destruct (wf_sym _ _ Hwf h Hlt) as (s & Hs & Hs').
  destruct (orig_is_Some _ _ Hlt) as [o Ho].
  destruct (wfP_dest_is_Some _ _ h Hwf Hlt) as [d Hd].
  assert (o ≠ d) as Hod.
  { apply (proj1 (Hrec o d)). by exists h. }
  destruct (wf_known _ _ Hwf h o Ho) as [p Hv]; [apply not_elem_of_empty|].
  destruct (wf_vertex _ _ Hwf o p Hv) as (r & l & -> & Hring & Hmem).
  assert (h ∈ l) as Hin by (apply Hmem; split; [done|apply not_elem_of_empty]).
  pose proof (is_ring_head _ _ _ Hring) as Hr.
  destruct Hring as (_ & _ & Hl).
  destruct (linked_next _ _ _ _ Hl Hin) as (n & Hn & Hnl).
  exists s, n, o, d. split; [done|]. split; [done|]. split; [done|].
  split; [by rewrite <- (dest_sym _ _ _ Hs)|]. split; [done|].
  split; [done|]. destruct Hnl as [Hnl| ->]; by apply Hmem.
Qed.

(** X8. [getVertexEdges] on a reachable state: the pointers it produces
    are non-null and pairwise distinct, there are as many as the vertex map
    has keys, and they are exactly the representatives, each with its key
    as origin. *)
Theorem getVertexEdges_reachable T g :
  reachable ip T g →
  ∃ hs : list nat,
    EdgeGraph.getVertexEdges [] g = Some (Some <$> hs, g)
    ∧ NoDup hs
    ∧ length hs = size (EdgeGraph.vertexMap g)
    ∧ ∀ h, h ∈ hs ↔
           ∃ v, EdgeGraph.vertexMap g !! v = Some (Some h)
                ∧ HalfEdge.orig (EdgeGraph.edges g) h = Some v.
Proof.
  intros Hreach. destruct (reachable_inv ip _ _ Hreach) as [Hwf _].
  set (its := map_to_list (EdgeGraph.vertexMap g)).
  set (f := λ it : Coordinate * ptr, default 0 it.2).
  assert (∀ it, it ∈ its →
            it.2 = Some (f it)
            ∧ HalfEdge.orig (EdgeGraph.edges g) (f it) = Some it.1) as Hits.
  { intros [v p] Hin. apply elem_of_map_to_list in Hin.
    destruct (wf_vertex _ _ Hwf v p Hin) as (r & l & -> & Hring & Hmem).
    split; [done|]. simpl. by apply Hmem, (is_ring_head _ _ _ Hring). }
  exists (f <$> its). split; [|split; [|split] ].
  - unfold EdgeGraph.getVertexEdges. rewrite push_entries_app. simpl.
    do 2 f_equal. fold its. rewrite <- list_fmap_compose.
    apply list_fmap_ext. intros i it Hi. simpl.
    apply Hits. by eapply list_elem_of_lookup_2.
  - apply NoDup_fmap_2_strong; [|apply NoDup_map_to_list].
    intros [v1 p1] [v2 p2] H1 H2 Heq.
    destruct (Hits _ H1) as [Hp1 Ho1]. destruct (Hits _ H2) as [Hp2 Ho2].
    simpl in *. rewrite Heq in Ho1, Hp1. congruence.
  - unfold its. by rewrite length_fmap, length_map_to_list.
  - intros h. rewrite list_elem_of_fmap. split.
    + intros ([v p] & -> & Hin). destruct (Hits _ Hin) as [Hp Ho].
      simpl in *. exists v. split; [|done].
      apply elem_of_map_to_list in Hin. by rewrite Hin, Hp.
    + intros (v & Hv & Ho). exists (v, Some h). split; [done|].
      by apply elem_of_map_to_list.
Qed.

(** X9. The ring of a vertex lists its neighbours once each: in every
    reachable state, walking [next] from the representative of a vertex
    [v] until it comes back visits exactly the half-edges with origin [v],
    none twice, and their destinations are, without repetition, the other
    ends of the edges at [v] that were asked for. *)
Theorem ring_neighbours T g v :
  reachable ip T g → is_Some (EdgeGraph.vertexMap g !! v) →
  ∃ r l ds,
    EdgeGraph.vertexMap g !! v = Some (Some r)
    ∧ HalfEdge.ring (EdgeGraph.edges g) r = Some l
    ∧ mapM (HalfEdge.dest (EdgeGraph.edges g)) l = Some ds
    ∧ NoDup l ∧ NoDup ds
    ∧ (∀ h, h ∈ l ↔ HalfEdge.orig (EdgeGraph.edges g) h = Some v)
    ∧ ∀ b, b ∈ ds ↔ v ≠ b ∧ ((v, b) ∈ T ∨ (b, v) ∈ T).
Proof.
  intros Hreach [p Hv]. destruct (reachable_inv ip _ _ Hreach) as [Hwf Hrec].
  destruct (wf_vertex _ _ Hwf v p Hv) as (r & l & -> & Hring & Hmem).
  set (f := λ h, default v (HalfEdge.dest (EdgeGraph.edges g) h)).
  assert (∀ h, h ∈ l → half_edge (EdgeGraph.edges g) h v (f h)) as Hf.
  { intros h Hh. apply Hmem in Hh as [Ho _]. split; [done|]. unfold f.
    destruct (wfP_dest_is_Some _ _ h Hwf) as [b ->]; [by eapply orig_lt|done]. }
  exists r, l, (f <$> l). split; [done|].
  split; [by apply ring_is_ring|]. split; [|split; [|split; [|split] ] ].
  - apply mapM_Some, Forall2_fmap_r, Forall_Forall2_diag, Forall_forall.
    intros h Hh. by destruct (Hf h Hh).
  - by destruct Hring as (_ & ? & _).
  - apply NoDup_fmap_2_strong; [|by destruct Hring as (_ & ? & _)].
    intros h1 h2 H1 H2 Heq.
    destruct (Hf h1 H1) as [Ho1 Hd1]. destruct (Hf h2 H2) as [Ho2 Hd2].
    rewrite Heq in Hd1. by apply (wf_simple _ _ Hwf h1 h2 v (f h2)).
  - intros h. rewrite Hmem. split; [by intros [? _]|].
    intros Ho. split; [done|]. apply not_elem_of_empty.
  - intros b. rewrite <- (Hrec v b), list_elem_of_fmap. split.
    + intros (h & -> & Hh). exists h. by apply Hf.
    + intros (h & Ho & Hd). exists h. split.
      * unfold f. by rewrite Hd.
      * apply Hmem. split; [done|]. apply not_elem_of_empty.
Qed.

(** X15. [create] makes a linked pair and nothing else: from any graph
    state it returns the first of two half-edges added at the back of the
    arena, with origins [p0] and [p1], each the [sym] of the other and
    each its own [next]; the half-edges that were there and the vertex map
    are untouched. *)
Theorem create_links p0 p1 g :
  ∃ g', EdgeGraph.create p0 p1 g = Some (length (EdgeGraph.edges g), g')
    ∧ EdgeGraph.vertexMap g' = EdgeGraph.vertexMap g
    ∧ length (EdgeGraph.edges g') = S (S (length (EdgeGraph.edges g)))
    ∧ EdgeGraph.edges g' !! length (EdgeGraph.edges g)
      = Some (HalfEdge.mk p0 (Some (S (length (EdgeGraph.edges g))))
                             (Some (length (EdgeGraph.edges g))))
    ∧ EdgeGraph.edges g' !! S (length (EdgeGraph.edges g))
      = Some (HalfEdge.mk p1 (Some (length (EdgeGraph.edges g)))
                             (Some (S (length (EdgeGraph.edges g)))))
    ∧ ∀ h, h < length (EdgeGraph.edges g) →
           EdgeGraph.edges g' !! h = EdgeGraph.edges g !! h.
Proof.
  eexists. split; [apply create_eq|]. simpl. split; [done|].
  split; [apply fresh_length|]. split; [apply fresh_lookup_e0|].
  split; [apply fresh_lookup_e1|]. intros h Hh. by apply fresh_lookup_old.
Qed.

End Beyond.

(** ** [createEdge] over fixed-size arrays *)

Section HeapHackProofs.

Variable N : nat.
Variable blank : HalfEdge.t.

(** [createEdge] spelled out on a consistent store. *)
Lemma createEdge_eq o s :
  HeapHack.ok N s →
  ∃ arr edges1,
    edges1 = match HeapHack.edges s with
             | [] => [HeapHack.newArray N blank]
             | _ => HeapHack.edges s
             end
    ∧ edges1 !! HeapHack.edgeArrayCount s = Some arr
    ∧ length arr = N
    ∧ length edges1 = S (HeapHack.edgeArrayCount s)
    ∧ Forall (λ arr, length arr = N) edges1
    ∧ HeapHack.createEdge N blank o s =
      Some ((HeapHack.edgeArrayCount s, HeapHack.edgeCount s),
            let edges2 :=
              <[HeapHack.edgeArrayCount s :=
                  <[HeapHack.edgeCount s := HalfEdge.new o]> arr]> edges1 in
            if Nat.eqb (S (HeapHack.edgeCount s)) N
            then {| HeapHack.edges := edges2 ++ [HeapHack.newArray N blank];
                    HeapHack.edgeArrayCount := S (HeapHack.edgeArrayCount s);
                    HeapHack.edgeCount := 0 |}
            else {| HeapHack.edges := edges2;
                    HeapHack.edgeArrayCount := HeapHack.edgeArrayCount s;
                    HeapHack.edgeCount := S (HeapHack.edgeCount s) |}).
Proof.
  destruct s as [bs a c]. intros (Hc & Hall & Hcase). simpl in *.
  set (edges1 := match bs with [] => [HeapHack.newArray N blank] | _ => bs end).
  assert (length edges1 = S a ∧ Forall (λ arr, length arr = N) edges1)
    as [Hlen Hall1].
  { destruct Hcase as [(-> & -> & ->)|Hlen].
    - split; [done|]. apply Forall_singleton.
      unfold HeapHack.newArray. apply length_replicate.
    - destruct bs; [done|]. done. }
  destruct (lookup_lt_is_Some_2 edges1 a) as [arr Harr]; [lia|].
  assert (length arr = N) as Hlarr.
  { by apply (proj1 (Forall_lookup _ _) Hall1 a arr). }
  destruct (lookup_lt_is_Some_2 arr c) as [x Hx]; [lia|].
  exists arr, edges1. split; [done|]. split; [done|]. split; [done|].
  split; [done|]. split; [done|].
  unfold HeapHack.createEdge. simpl. fold edges1. rewrite Harr. simpl.
  rewrite Hx. simpl.
  match goal with |- (if ?b then _ else _) = _ => by destruct b end.
Qed.

Lemma createEdge_counters o s :
  HeapHack.ok N s →
  ∃ s', HeapHack.createEdge N blank o s
          = Some ((HeapHack.edgeArrayCount s, HeapHack.edgeCount s), s')
        ∧ HeapHack.ok N s'
        ∧ HeapHack.count N s' = S (HeapHack.count N s)
        ∧ length (HeapHack.edges s') =
            (if Nat.eqb (S (HeapHack.edgeCount s)) N
             then S (S (HeapHack.edgeArrayCount s))
             else S (HeapHack.edgeArrayCount s)).
Proof.
  intros Hok.
  destruct (createEdge_eq o s Hok)
    as (arr & edges1 & _ & Harr & Hlarr & Hlen & Hall1 & ->).
  destruct Hok as (Hc & _ & _). eexists. split; [done|].
  assert (Forall (λ arr, length arr = N)
            (<[HeapHack.edgeArrayCount s :=
                 <[HeapHack.edgeCount s := HalfEdge.new o]> arr]> edges1))
    as Hall2.
  { apply Forall_insert; [done|]. by rewrite length_insert. }
  destruct (Nat.eqb_spec (S (HeapHack.edgeCount s)) N) as [Heq|Hne];
    unfold HeapHack.ok, HeapHack.count; simpl.
  - split; [|split].
    + split; [lia|]. split.
      * apply Forall_app. split; [done|]. apply Forall_singleton.
        unfold HeapHack.newArray. apply length_replicate.
      * right. rewrite length_app, length_insert. simpl. lia.
    + lia.
    + rewrite length_app, length_insert. simpl. lia.
  - split; [|split].
    + split; [lia|]. split; [done|]. right. by rewrite length_insert.
    + lia.
    + by rewrite length_insert.
Qed.

Lemma createEdge_slots o s p s' :
  HeapHack.ok N s → HeapHack.createEdge N blank o s = Some (p, s') →
  HeapHack.slot s' p = Some (HalfEdge.new o)
  ∧ ∀ a c, c < N → a * N + c < HeapHack.count N s →
           HeapHack.slot s' (a, c) = HeapHack.slot s (a, c).
Proof.
  intros Hok Hcreate.
  destruct (createEdge_eq o s Hok)
    as (arr & edges1 & Hedges1 & Harr & Hlarr & Hlen & Hall1 & Heq).
  rewrite Heq in Hcreate. injection Hcreate as <- <-.
  destruct Hok as (Hc & _ & Hcase).
  set (a0 := HeapHack.edgeArrayCount s) in *.
  set (c0 := HeapHack.edgeCount s) in *.
  set (edges2 := <[a0 := <[c0 := HalfEdge.new o]> arr]> edges1).
  assert (∀ a, a ≤ a0 →
            HeapHack.edges
              (if Nat.eqb (S c0) N
               then {| HeapHack.edges := edges2 ++ [HeapHack.newArray N blank];
                       HeapHack.edgeArrayCount := S a0;
                       HeapHack.edgeCount := 0 |}
               else {| HeapHack.edges := edges2;
                       HeapHack.edgeArrayCount := a0;
                       HeapHack.edgeCount := S c0 |}) !! a
            = edges2 !! a) as Hlook.
  { intros a Ha. destruct (Nat.eqb (S c0) N); simpl; [|done].
    apply lookup_app_l. unfold edges2. rewrite length_insert. lia. }
  unfold HeapHack.slot. cbn [fst snd]. split.
  - rewrite Hlook by done. unfold edges2.
    rewrite list_lookup_insert_eq by lia. simpl.
    apply list_lookup_insert_eq. lia.
  - intros a c Hcn Hlt. unfold HeapHack.count in Hlt. fold a0 c0 in Hlt.
    assert (a ≤ a0) as Ha by nia.
    rewrite Hlook by done. unfold edges2.
    assert (edges1 = HeapHack.edges s) as Hsame.
    { rewrite Hedges1. destruct (HeapHack.edges s); [|done].
      destruct Hcase as [(_ & Ha0 & Hc0)|Hl]; [|done].
      fold a0 in Ha0. fold c0 in Hc0. lia. }
    destruct (decide (a = a0)) as [->|Hne].
    + rewrite list_lookup_insert_eq by lia. simpl.
      rewrite list_lookup_insert_ne by lia.
      by rewrite <- Hsame, Harr.
    + rewrite list_lookup_insert_ne by done. by rewrite Hsame.
Qed.

(** X10. [createEdge] stays within its arrays: on a consistent store it
    returns the slot the two counters designate, hands out one more
    half-edge, and leaves the store consistent, a new array being added
    exactly when the current one is full. *)
Theorem createEdge_in_bounds o s :
  HeapHack.ok N s →
  ∃ s', HeapHack.createEdge N blank o s
          = Some ((HeapHack.edgeArrayCount s, HeapHack.edgeCount s), s')
        ∧ HeapHack.ok N s'
        ∧ HeapHack.count N s' = S (HeapHack.count N s)
        ∧ length (HeapHack.edges s') =
            (if Nat.eqb (S (HeapHack.edgeCount s)) N
             then S (S (HeapHack.edgeArrayCount s))
             else S (HeapHack.edgeArrayCount s)).
Proof.
  intros Hok.
  destruct (createEdge_counters o s Hok) as (s' & Hcreate & Hok' & Hcount & Hlen).
  exists s'. split; [done|]. split; [done|]. by split.
Qed.

(** X11. [createEdge] never touches a half-edge it has handed out: after
    the call the returned slot holds a fresh unlinked half-edge with the
    given origin, and every slot handed out before holds what it held. *)
Theorem createEdge_stable o s p s' :
  HeapHack.ok N s → HeapHack.createEdge N blank o s = Some (p, s') →
  HeapHack.slot s' p = Some (HalfEdge.new o)
  ∧ ∀ a c, c < N → a * N + c < HeapHack.count N s →
           HeapHack.slot s' (a, c) = HeapHack.slot s (a, c).
Proof.
  intros Hok Hcreate.
  destruct (createEdge_slots o s p s' Hok Hcreate) as [Hnew Hold].
  split; [exact Hnew|]. intros a c Hc Hlt. by apply Hold.
Qed.

(** X12. The arena of arrays refines the flat arena: when the arrays hold
    the half-edges of the flat arena of a graph, the two [createEdge]
    return the same half-edge, the [h]-th one created being slot
    [h mod N] of array [h / N], and the arrays hold the new flat arena. *)
Theorem createEdge_refines o s g :
  HeapHack.ok N s → HeapHack.represents N s (EdgeGraph.edges g) →
  ∃ p s' h g',
    HeapHack.createEdge N blank o s = Some (p, s')
    ∧ EdgeGraph.createEdge o g = Some (h, g')
    ∧ p = (h / N, h mod N)
    ∧ HeapHack.ok N s'
    ∧ HeapHack.represents N s' (EdgeGraph.edges g')
    ∧ EdgeGraph.vertexMap g' = EdgeGraph.vertexMap g.
Proof.
  intros Hok [Hcount Hslots].
  destruct (createEdge_counters o s Hok) as (s' & Hcreate & Hok' & Hcount' & _).
  destruct (createEdge_slots o s _ s' Hok Hcreate) as [Hnew Hold].
  pose proof Hok as (Hc & _ & _).
  assert (N ≠ 0) as HN by lia.
  set (n := length (EdgeGraph.edges g)) in *.
  unfold HeapHack.count in Hcount.
  assert (n / N = HeapHack.edgeArrayCount s) as Hdiv.
  { symmetry. apply (Nat.div_unique n N _ (HeapHack.edgeCount s)); lia. }
  assert (n mod N = HeapHack.edgeCount s) as Hmod.
  { symmetry. apply (Nat.mod_unique n N (HeapHack.edgeArrayCount s)); lia. }
  eexists _, s', n, _. split; [exact Hcreate|].
  split; [reflexivity|]. split; [by rewrite Hdiv, Hmod|].
  split; [done|]. split; [|done]. simpl. split.
  - rewrite Hcount', length_app. unfold HeapHack.count. simpl. lia.
  - intros h Hh. rewrite length_app in Hh. simpl in Hh.
    destruct (decide (h = n)) as [->|Hne].
    + rewrite Hdiv, Hmod, Hnew.
      by rewrite lookup_app_r, Nat.sub_diag.
    + assert (h < n) as Hlt by (unfold n; lia).
      rewrite lookup_app_l by done. rewrite <- (Hslots h Hlt).
      apply Hold.
      * by apply Nat.mod_upper_bound.
      * unfold HeapHack.count. rewrite Hcount.
        pose proof (Nat.div_mod_eq h N). lia.
Qed.

(** X14. The two half-edges [create] asks for never share a slot: two
    [createEdge] calls in a row on a consistent store return different
    pointers, and after the second call each of the two slots holds the
    half-edge made for it. *)
Theorem createEdge_twice_distinct p0 p1 s e0 s1 e1 s2 :
  HeapHack.ok N s →
  HeapHack.createEdge N blank p0 s = Some (e0, s1) →
  HeapHack.createEdge N blank p1 s1 = Some (e1, s2) →
  e0 ≠ e1
  ∧ HeapHack.slot s2 e0 = Some (HalfEdge.new p0)
  ∧ HeapHack.slot s2 e1 = Some (HalfEdge.new p1).
Proof.
  intros Hok H0 H1.
  destruct (createEdge_counters p0 s Hok) as (s1' & H0' & Hok1 & Hcount1 & _).
  rewrite H0 in H0'. injection H0' as -> <-.
  destruct (createEdge_counters p1 s1 Hok1) as (s2' & H1' & _ & _ & _).
  rewrite H1 in H1'. injection H1' as -> <-.
  destruct (createEdge_slots p0 s _ s1 Hok H0) as [Hnew0 _].
  destruct (createEdge_slots p1 s1 _ s2 Hok1 H1) as [Hnew1 Hold1].
  unfold HeapHack.count in Hcount1. destruct Hok as (Hc & _ & _).
  split; [|split; [|done] ].
  - intros [= Ha Hc']. rewrite <- Ha, <- Hc' in Hcount1. lia.
  - rewrite Hold1; [done|done|]. unfold HeapHack.count. lia.
Qed.

End HeapHackProofs.

(** * The further properties on sample inputs *)

(** The path of two edges, asked for with a repetition and a degenerate
    call in between: four half-edges, three vertices. *)
Example path_scenario :
  length (EdgeGraph.edges path) = 4
  ∧ distinctEdges (rev path_calls) = 2
  ∧ size (EdgeGraph.vertexMap path) = 3
  ∧ (fst <$> EdgeGraph.findEdge ptA ptC path) = Some None
  ∧ (fst <$> EdgeGraph.findEdge ptC ptB path) = Some (Some 3).
Proof. vm_compute. repeat split; reflexivity. Qed.

Lemma addEdge_keeps_half_edges_witness :
  (length (EdgeGraph.edges kite) = length (EdgeGraph.edges triangle)
   ∨ length (EdgeGraph.edges kite) = S (S (length (EdgeGraph.edges triangle))))
  ∧ ∀ h, h < length (EdgeGraph.edges triangle) →
      HalfEdge.orig (EdgeGraph.edges kite) h
        = HalfEdge.orig (EdgeGraph.edges triangle) h
      ∧ HalfEdge.sym (EdgeGraph.edges kite) h
        = HalfEdge.sym (EdgeGraph.edges triangle) h.
Proof.
  apply (addEdge_keeps_half_edges afterFirst ptA ptD triangle (Some 6) kite).
  vm_compute. reflexivity.
Defined.

Lemma addEdge_keeps_representatives_witness :
  EdgeGraph.vertexMap kite !! ptA = Some (Some 0).
Proof.
  apply (addEdge_keeps_representatives
           afterFirst ptA ptD triangle (Some 6) kite).
  - vm_compute. reflexivity.
  - vm_compute. reflexivity.
Defined.

Lemma vertexMap_complete_witness :
  is_Some (EdgeGraph.vertexMap path !! ptC)
  ↔ ∃ a b, (a, b) ∈ rev path_calls ∧ a ≠ b ∧ (ptC = a ∨ ptC = b).
Proof.
  apply (vertexMap_complete afterFirst (rev path_calls) path ptC).
  apply reachable_run. vm_compute. reflexivity.
Defined.

Lemma arena_size_witness :
  length (EdgeGraph.edges path) = 2 * distinctEdges (rev path_calls).
Proof.
  apply (arena_size afterFirst (rev path_calls) path).
  apply reachable_run. vm_compute. reflexivity.
Defined.

Lemma findEdge_inserted_witness :
  ∃ r, EdgeGraph.findEdge ptC ptB path = Some (r, path)
       ∧ (is_Some r ↔
          ptC ≠ ptB ∧ ((ptC, ptB) ∈ rev path_calls ∨ (ptB, ptC) ∈ rev path_calls))
       ∧ ∀ e, r = Some e → half_edge (EdgeGraph.edges path) e ptC ptB.
Proof.
  apply (findEdge_inserted afterFirst (rev path_calls) path ptC ptB).
  apply reachable_run. vm_compute. reflexivity.
Defined.

Lemma addEdge_reverse_witness :
  ∃ e e' g',
    EdgeGraph.addEdge afterFirst ptA ptC path = Some (Some e, g')
    ∧ EdgeGraph.addEdge afterFirst ptC ptA g' = Some (Some e', g')
    ∧ HalfEdge.sym (EdgeGraph.edges g') e = Some (Some e')
    ∧ HalfEdge.sym (EdgeGraph.edges g') e' = Some (Some e).
Proof.
  apply (addEdge_reverse afterFirst (rev path_calls) path ptA ptC).
  - apply reachable_run. vm_compute. reflexivity.
  - discriminate.
Defined.

Lemma half_edges_paired_witness :
  ∃ s n o d,
    HalfEdge.sym (EdgeGraph.edges star) 2 = Some (Some s)
    ∧ HalfEdge.sym (EdgeGraph.edges star) s = Some (Some 2)
    ∧ HalfEdge.orig (EdgeGraph.edges star) 2 = Some o
    ∧ HalfEdge.orig (EdgeGraph.edges star) s = Some d
    ∧ o ≠ d
    ∧ HalfEdge.next (EdgeGraph.edges star) 2 = Some (Some n)
    ∧ HalfEdge.orig (EdgeGraph.edges star) n = Some o.
Proof.
  apply (half_edges_paired afterLast (rev star_calls) star 2).
  - apply reachable_run. vm_compute. reflexivity.
  - vm_compute. lia.
Defined.

Lemma getVertexEdges_reachable_witness :
  ∃ hs : list nat,
    EdgeGraph.getVertexEdges [] star = Some (Some <$> hs, star)
    ∧ NoDup hs
    ∧ length hs = size (EdgeGraph.vertexMap star)
    ∧ ∀ h, h ∈ hs ↔
           ∃ v, EdgeGraph.vertexMap star !! v = Some (Some h)
                ∧ HalfEdge.orig (EdgeGraph.edges star) h = Some v.
Proof.
  apply (getVertexEdges_reachable afterLast (rev star_calls) star).
  apply reachable_run. vm_compute. reflexivity.
Defined.

Lemma ring_neighbours_witness :
  ∃ r l ds,
    EdgeGraph.vertexMap star !! ptA = Some (Some r)
    ∧ HalfEdge.ring (EdgeGraph.edges star) r = Some l
    ∧ mapM (HalfEdge.dest (EdgeGraph.edges star)) l = Some ds
    ∧ NoDup l ∧ NoDup ds
    ∧ (∀ h, h ∈ l ↔ HalfEdge.orig (EdgeGraph.edges star) h = Some ptA)
    ∧ ∀ b, b ∈ ds ↔
           ptA ≠ b ∧ ((ptA, b) ∈ rev star_calls ∨ (b, ptA) ∈ rev star_calls).
Proof.
  apply (ring_neighbours afterLast (rev star_calls) star ptA).
  - apply reachable_run. vm_compute. reflexivity.
  - exists (Some 0). vm_compute. reflexivity.
Defined.

Lemma addEdge_twice_witness :
  EdgeGraph.addEdge afterFirst ptA ptD kite = Some (Some 6, kite).
Proof.
  apply (addEdge_twice afterFirst (rev triangle_calls) triangle ptA ptD).
  - apply reachable_run. vm_compute. reflexivity.
  - vm_compute. reflexivity.
Defined.

Lemma createEdge_in_bounds_witness :
  ∃ s', HeapHack.createEdge 2 blankEdge ptD hack3 = Some ((1, 1), s')
        ∧ HeapHack.ok 2 s'
        ∧ HeapHack.count 2 s' = S (HeapHack.count 2 hack3)
        ∧ length (HeapHack.edges s') = 3.
Proof.
  apply (createEdge_in_bounds 2 blankEdge ptD hack3).
  unfold HeapHack.ok. simpl. split; [lia|]. split; [|by right].
  repeat constructor.
Defined.

Lemma createEdge_stable_witness :
  HeapHack.slot hack4 (1, 1) = Some (HalfEdge.new ptD)
  ∧ ∀ a c, c < 2 → a * 2 + c < HeapHack.count 2 hack3 →
           HeapHack.slot hack4 (a, c) = HeapHack.slot hack3 (a, c).
Proof.
  apply (createEdge_stable 2 blankEdge ptD hack3 (1, 1) hack4).
  - unfold HeapHack.ok. simpl. split; [lia|]. split; [|by right].
    repeat constructor.
  - reflexivity.
Defined.

Lemma createEdge_refines_witness :
  ∃ p s' h g',
    HeapHack.createEdge 2 blankEdge ptD hack3 = Some (p, s')
    ∧ EdgeGraph.createEdge ptD flat3 = Some (h, g')
    ∧ p = (h / 2, h mod 2)
    ∧ HeapHack.ok 2 s'
    ∧ HeapHack.represents 2 s' (EdgeGraph.edges g')
    ∧ EdgeGraph.vertexMap g' = EdgeGraph.vertexMap flat3.
Proof.
  apply (createEdge_refines 2 blankEdge ptD hack3 flat3).
  - unfold HeapHack.ok. simpl. split; [lia|]. split; [|by right].
    repeat constructor.
  - split; [reflexivity|]. simpl. intros h Hh.
    destruct h as [|[|[|h] ] ]; [reflexivity|reflexivity|reflexivity|lia].
Defined.

Lemma createEdge_twice_distinct_witness :
  (1, 1) ≠ (2, 0)
  ∧ HeapHack.slot
      {| HeapHack.edges := [ [HalfEdge.new ptA; HalfEdge.new ptB];
                             [HalfEdge.new ptC; HalfEdge.new ptD];
                             [HalfEdge.new ptA; blankEdge] ];
         HeapHack.edgeArrayCount := 2;
         HeapHack.edgeCount := 1 |} (1, 1) = Some (HalfEdge.new ptD)
  ∧ HeapHack.slot
      {| HeapHack.edges := [ [HalfEdge.new ptA; HalfEdge.new ptB];
                             [HalfEdge.new ptC; HalfEdge.new ptD];
                             [HalfEdge.new ptA; blankEdge] ];
         HeapHack.edgeArrayCount := 2;
         HeapHack.edgeCount := 1 |} (2, 0) = Some (HalfEdge.new ptA).
Proof.
  apply (createEdge_twice_distinct 2 blankEdge ptD ptA hack3 (1, 1) hack4 (2, 0)).
  - unfold HeapHack.ok. simpl. split; [lia|]. split; [|by right].
    repeat constructor.
  - reflexivity.
  - reflexivity.
Defined.
